(** * Birthday Surprise: the scene / interaction state machine

    A shallow embedding of the stateful core of [src/App.jsx] (and of
    [src/App.tsx], whose handlers are the same text): the React state of
    [BirthdaySurprise], the global [window._pendingGiftId], the host's timer
    table ([setTimeout], [setInterval], [clearInterval]), the [useInterval]
    hook and the [CakeAnimals] placement engine.

    Modelling conventions.
    - One React commit per event: the state updates queued by a click
      handler or a timer callback are applied, and the tree re-rendered,
      before the next event is dispatched.  A handler is therefore a function
      [World -> World], and [render] mounts or unmounts [CakeAnimals]
      according to the JSX condition [stage === "cake"].
    - A closure reads the props of the render that created it.  The only
      one that reads any is the [onClick] of [Cake], which tests its prop
      [lit]; it takes that prop as an argument, and an operation or a click
      passes it the value [candlesLit] had at the last commit.
    - The clock is logical, in milliseconds; [tick_ms] advances it by one
      and runs every timer that has become due.
    - JavaScript numbers that are gift ids are integers ([Z]); coordinates
      are rationals, and every floating-point operation is followed by a
      rounding function [fround] of which only monotonicity and exactness on
      the integers up to 2^53 are used (both hold of binary64 rounding).
    - [Math.random] is an oracle [random : nat -> Q], indexed by the number
      of draws made so far by the placement engine.
    - The door and the modal are children of [AnimatePresence] with an
      [exit] animation: they stay in the DOM, with their [onClick], for a
      while after the commit that stops rendering them.  The animations are
      not followed; the user-interface events below let through every click
      that an element still leaving the page can receive.  The other
      elements leave the page at the commit that stops rendering them. *)

From Stdlib Require Import ZArith NArith QArith Qround Lqa Lia List String.
From stdpp Require Import base gmap sets list strings.

#[local] Set Warnings "-clear-no-such-hyp".
Local Open Scope Z_scope.

(** ** Data model *)

(** [type Stage = "door" | "cake" | "gifts"] *)
Inductive Stage := door | cake | gifts.

#[global] Instance Stage_eq_dec : EqDecision Stage.
Proof. solve_decision. Defined.

(** The values [window._pendingGiftId] takes: the property is absent (or
    reset to [undefined]) or holds the number passed to [handleOpenGift]. *)
Inductive jsval := JSundefined | JSnumber (n : Z).

#[global] Instance jsval_eq_dec : EqDecision jsval.
Proof. solve_decision. Defined.

(** The three closures that the program hands to the host's timers. *)
Inductive Callback :=
| CbSetStageGifts    (* () => setStage("gifts")            (handleBlowCandles) *)
| CbToggleConfetti   (* () => setShowConfetti((s) => !s)   (BirthdaySurprise)  *)
| CbPlacementTick.   (* () => { setSpots(...); setTick(...) }    (CakeAnimals) *)

#[global] Instance Callback_eq_dec : EqDecision Callback.
Proof. solve_decision. Defined.

(** An entry of the host's timer table. [period = None] for [setTimeout]. *)
Record Timer := { tid : nat; due : N; period : option N; cb : Callback }.

Module Placement.
(** [{ left, top }], in percent of the parent box. *)
Record Spot := { left : Q; top : Q }.
(** [{ x, y }], a zone anchor or the jitter box. *)
Record Point := { x : Q; y : Q }.
End Placement.

(** A mounted [CakeAnimals] instance: its two [useState] cells, the length
    of [entries] captured by its closures, and the id its [useInterval]
    effect obtained from [setInterval]. *)
Record CakeAnimalsInst := {
  ca_length : nat;
  ca_tick : nat;
  ca_spots : list Placement.Spot;
  ca_interval : nat
}.

Record World := {
  (* useState cells of BirthdaySurprise *)
  stage : Stage;
  candlesLit : bool;
  modalOpen : bool;
  modalMsg : string;
  openedIds : gset Z;
  showConfetti : bool;
  (* window *)
  _pendingGiftId : jsval;
  (* host event loop *)
  now : N;
  timers : list Timer;
  next_tid : nat;
  (* child component *)
  cakeAnimals : option CakeAnimalsInst;
  (* bookkeeping: Math.random draws made, placement callbacks run *)
  draws : nat;
  placementTicks : nat
}.

(** The host's arithmetic and source of randomness. *)
Record Host := { fround : Q -> Q; random : nat -> Q }.

(** *** Field updates *)

Definition setStage (s : Stage) (w : World) : World :=
  Build_World s (candlesLit w) (modalOpen w) (modalMsg w) (openedIds w)
    (showConfetti w) (_pendingGiftId w) (now w) (timers w) (next_tid w)
    (cakeAnimals w) (draws w) (placementTicks w).

Definition setCandlesLit (b : bool) (w : World) : World :=
  Build_World (stage w) b (modalOpen w) (modalMsg w) (openedIds w)
    (showConfetti w) (_pendingGiftId w) (now w) (timers w) (next_tid w)
    (cakeAnimals w) (draws w) (placementTicks w).

Definition setModalOpen (b : bool) (w : World) : World :=
  Build_World (stage w) (candlesLit w) b (modalMsg w) (openedIds w)
    (showConfetti w) (_pendingGiftId w) (now w) (timers w) (next_tid w)
    (cakeAnimals w) (draws w) (placementTicks w).

Definition setModalMsg (m : string) (w : World) : World :=
  Build_World (stage w) (candlesLit w) (modalOpen w) m (openedIds w)
    (showConfetti w) (_pendingGiftId w) (now w) (timers w) (next_tid w)
    (cakeAnimals w) (draws w) (placementTicks w).

(** [setOpenedIds(f)]: the functional form of the state setter. *)
Definition setOpenedIds (f : gset Z -> gset Z) (w : World) : World :=
  Build_World (stage w) (candlesLit w) (modalOpen w) (modalMsg w)
    (f (openedIds w)) (showConfetti w) (_pendingGiftId w) (now w) (timers w)
    (next_tid w) (cakeAnimals w) (draws w) (placementTicks w).

Definition setShowConfetti (f : bool -> bool) (w : World) : World :=
  Build_World (stage w) (candlesLit w) (modalOpen w) (modalMsg w)
    (openedIds w) (f (showConfetti w)) (_pendingGiftId w) (now w) (timers w)
    (next_tid w) (cakeAnimals w) (draws w) (placementTicks w).

Definition set_pendingGiftId (v : jsval) (w : World) : World :=
  Build_World (stage w) (candlesLit w) (modalOpen w) (modalMsg w)
    (openedIds w) (showConfetti w) v (now w) (timers w) (next_tid w)
    (cakeAnimals w) (draws w) (placementTicks w).

Definition set_now (n : N) (w : World) : World :=
  Build_World (stage w) (candlesLit w) (modalOpen w) (modalMsg w)
    (openedIds w) (showConfetti w) (_pendingGiftId w) n (timers w)
    (next_tid w) (cakeAnimals w) (draws w) (placementTicks w).

Definition set_timers (l : list Timer) (w : World) : World :=
  Build_World (stage w) (candlesLit w) (modalOpen w) (modalMsg w)
    (openedIds w) (showConfetti w) (_pendingGiftId w) (now w) l (next_tid w)
    (cakeAnimals w) (draws w) (placementTicks w).

Definition set_next_tid (n : nat) (w : World) : World :=
  Build_World (stage w) (candlesLit w) (modalOpen w) (modalMsg w)
    (openedIds w) (showConfetti w) (_pendingGiftId w) (now w) (timers w) n
    (cakeAnimals w) (draws w) (placementTicks w).

Definition set_cakeAnimals (a : option CakeAnimalsInst) (w : World) : World :=
  Build_World (stage w) (candlesLit w) (modalOpen w) (modalMsg w)
    (openedIds w) (showConfetti w) (_pendingGiftId w) (now w) (timers w)
    (next_tid w) a (draws w) (placementTicks w).

Definition set_draws (n : nat) (w : World) : World :=
  Build_World (stage w) (candlesLit w) (modalOpen w) (modalMsg w)
    (openedIds w) (showConfetti w) (_pendingGiftId w) (now w) (timers w)
    (next_tid w) (cakeAnimals w) n (placementTicks w).

Definition set_placementTicks (n : nat) (w : World) : World :=
  Build_World (stage w) (candlesLit w) (modalOpen w) (modalMsg w)
    (openedIds w) (showConfetti w) (_pendingGiftId w) (now w) (timers w)
    (next_tid w) (cakeAnimals w) (draws w) n.

(** ** The host's timers *)

(** [setTimeout(c, delay)]; the id it returns is not used by the program. *)
Definition setTimeout (c : Callback) (delay : N) (w : World) : World :=
  set_next_tid (S (next_tid w))
    (set_timers (timers w ++
       [{| tid := next_tid w; due := (now w + delay)%N; period := None; cb := c |}]) w).

(** [setInterval(c, delay)]: the new world and the id returned. *)
Definition setInterval (c : Callback) (delay : N) (w : World) : nat * World :=
  (next_tid w,
   set_next_tid (S (next_tid w))
     (set_timers (timers w ++
        [{| tid := next_tid w; due := (now w + delay)%N; period := Some delay; cb := c |}]) w)).

(** [clearInterval(id)] *)
Definition clearInterval (id : nat) (w : World) : World :=
  set_timers (filter (fun t => tid t <> id) (timers w)) w.

Fixpoint lookupTimer (id : nat) (l : list Timer) : option Timer :=
  match l with
  | [] => None
  | t :: l' => if Nat.eqb (tid t) id then Some t else lookupTimer id l'
  end.

(** A timer that fires: a timeout leaves the table, an interval is re-armed. *)
Definition rearm (t : Timer) (w : World) : World :=
  match period t with
  | None => set_timers (filter (fun t' => tid t' <> tid t) (timers w)) w
  | Some p =>
      set_timers
        ((fun t' => if Nat.eqb (tid t') (tid t)
                    then {| tid := tid t'; due := (now w + p)%N;
                            period := period t'; cb := cb t' |}
                    else t') <$> timers w) w
  end.

(** ** Handlers of [BirthdaySurprise] *)

(** [function handleEnter() { setStage("cake"); }] *)
Definition handleEnter (w : World) : World := setStage cake w.

(** [setCandlesLit(false); setTimeout(() => setStage("gifts"), 600);] *)
Definition handleBlowCandles (w : World) : World :=
  setTimeout CbSetStageGifts 600 (setCandlesLit false w).

(** [setModalMsg(text); setModalOpen(true); window._pendingGiftId = giftId;] *)
Definition handleOpenGift (giftId : Z) (text : string) (w : World) : World :=
  set_pendingGiftId (JSnumber giftId) (setModalOpen true (setModalMsg text w)).

(** [setModalOpen(false); const id = window._pendingGiftId;
     if (typeof id === "number") {
       setOpenedIds((prev) => new Set(prev).add(id));
       window._pendingGiftId = undefined; }]
    The [typeof] test is the case analysis on the value read. *)
Definition handleCloseModal (w : World) : World :=
  let w1 := setModalOpen false w in
  match _pendingGiftId w1 with
  | JSnumber id =>
      set_pendingGiftId JSundefined (setOpenedIds (fun prev => {[ id ]} ∪ prev) w1)
  | JSundefined => w1
  end.

(** [Cake]'s button: [onClick={() => { if (lit) onBlow(); }}], with
    [onBlow={handleBlowCandles}].  [lit] is the prop of the render that
    created the closure, [lit={candlesLit}] as it was at that commit, and not
    the state at the time of the click. *)
Definition Cake_onClick (lit : bool) (w : World) : World :=
  if lit then handleBlowCandles w else w.

(** The closure that the commit [w] rendered for the cake, invoked [n] times
    before React commits again. *)
Definition clicksBeforeCommit (n : nat) (w : World) : World :=
  Nat.iter n (Cake_onClick (candlesLit w)) w.

(** ** Gifts *)

Definition GIFT_MESSAGES : list string := [
  "Chúc bạn tuổi mới luôn rực rỡ như pháo hoa và nhẹ nhàng như bóng bay 🎈";
  "Chúc mọi điều bạn ước đều gần hơn mỗi ngày ✨";
  "Luôn khoẻ, luôn vui và cười thật tươi nhé! 😊";
  "Thêm một tuổi – thêm nhiều hành trình đáng nhớ 💖";
  "Công việc thuận lợi, tình cảm ngọt ngào, túi lúc nào cũng đầy! 💼💗";
  "Đi đâu cũng gặp điều tốt lành và người dễ thương như bạn 🎁";
  "Nỗ lực hôm nay là phép màu của ngày mai – cố lên nhé! 🌟";
  "Chúc bạn luôn được yêu thương và yêu chính mình hơn 💝"
]%string.

(** [{ id, hue, message }]; the hue only colours the box and is left out. *)
Record Gift := { id : Z; message : string }.

(** [GIFT_MESSAGES.map((m, i) => ({ id: i, ..., message: m }))] *)
Definition gifts_catalog : list Gift :=
  imap (fun i m => {| id := Z.of_nat i; message := m |}) GIFT_MESSAGES.

(** ** The placement engine of [CakeAnimals] *)

Module Engine.
Import Placement.

(** [const ZONES = [ {x: 85, y: 65}, ... ]] *)
Definition ZONES : list Point := [
  {| x := 85; y := 65 |};
  {| x := 17; y := 48 |};
  {| x := 15; y := 28 |};
  {| x := 80; y := 28 |};
  {| x := 20; y := 78 |};
  {| x := 75; y := 78 |}
]%Q.

(** [const JITTER = { x: 1, y: 1 }] *)
Definition JITTER : Point := {| x := 1; y := 1 |}%Q.

(** [const fallbacks = [...]], six emoji *)
Definition fallbacks : list string :=
  ["🐰"; "🐱"; "🐻"; "🦊"; "🐼"; "🐨"]%string.

(** [const COUNT = Math.min(images.length || 0, 6)] *)
Definition COUNT (images : list string) : nat := Nat.min (length images) 6.

(** [const entries = COUNT ? images.slice(0, COUNT) : fallbacks] *)
Definition entries (images : list string) : list string :=
  if Nat.eqb (COUNT images) 0 then fallbacks else take (COUNT images) images.

(** [entries.length || 6], the length given to [Array.from] *)
Definition spotCount (images : list string) : nat :=
  if Nat.eqb (length (entries images)) 0 then 6%nat else length (entries images).

(** [ZONES[i % 6]]; the index is always in range. *)
Definition zone (i : nat) : Point :=
  nth (i mod 6) ZONES {| x := 0; y := 0 |}%Q.

(** [anchor + (Math.random() * 2 - 1) * jitter], one rounding per operation;
    [r] is the value [Math.random()] returned. *)
Definition jittered (h : Host) (anchor jitter r : Q) : Q :=
  fround h (anchor + fround h (fround h (fround h (r * 2) - 1) * jitter))%Q.

(** The callback of [Array.from]: [left] is evaluated before [top], so the
    entry [i] consumes the draws [d + 2i] and [d + 2i + 1]. *)
Definition spotAt (h : Host) (d i : nat) : Spot :=
  {| left := jittered h (x (zone i)) (x JITTER) (random h (d + 2 * i));
     top := jittered h (y (zone i)) (y JITTER) (random h (d + 2 * i + 1)) |}.

(** [Array.from({ length: n }, (_, i) => ({ left: ..., top: ... }))] *)
Definition genSpots (h : Host) (d n : nat) : list Spot :=
  spotAt h d <$> seq 0 n.

(** Rounding is monotone and exact on the integers a binary64 holds. *)
Definition roundingOK (h : Host) : Prop :=
  (forall a b : Q, (a <= b)%Q -> (fround h a <= fround h b)%Q) /\
  (forall z : Z, - 2 ^ 53 <= z <= 2 ^ 53 -> (fround h (inject_Z z) == inject_Z z)%Q).

(** [Math.random()] returns a number in [0, 1). *)
Definition randomOK (h : Host) : Prop :=
  forall k, (0 <= random h k < 1)%Q.

(** The spot lies in the jitter box around the anchor. *)
Definition withinJitter (z : Point) (s : Spot) : Prop :=
  (x z - x JITTER <= left s <= x z + x JITTER)%Q /\
  (y z - y JITTER <= top s <= y z + y JITTER)%Q.

(** Squared distance between two anchors. *)
Definition dist2 (p q : Point) : Q :=
  ((x p - x q) * (x p - x q) + (y p - y q) * (y p - y q))%Q.

(** The largest displacement the jitter allows, squared. *)
Definition jitterAmplitude2 : Q := (x JITTER * x JITTER + y JITTER * y JITTER)%Q.

(** The jitter amplitude is less than half the distance between any two
    anchors: [a < D / 2], stated on the squares as [4 a^2 < D^2]. *)
Definition zonesSeparated : Prop :=
  forall j k p q, ZONES !! j = Some p -> ZONES !! k = Some q -> j <> k ->
    (4 * jitterAmplitude2 < dist2 p q)%Q.

(** The jitter boxes of two anchors have no point in common. *)
Definition boxesDisjoint (p q : Point) : Prop :=
  (x p + x JITTER < x q - x JITTER)%Q \/ (x q + x JITTER < x p - x JITTER)%Q \/
  (y p + y JITTER < y q - y JITTER)%Q \/ (y q + y JITTER < y p - y JITTER)%Q.

End Engine.

(** [const [cakeImages] = useState([photo1, ..., photo6])] *)
Definition cakeImages : list string :=
  ["../images/1.jpg"; "../images/2.jpg"; "../images/3.jpg";
   "../images/4.jpg"; "../images/5.png"; "../images/6.jpg"]%string.

(** ** The [useInterval] hook

    [savedRef] always holds the component's latest closure, which is what a
    [Callback] stands for.  The second effect depends on [delay] alone, and
    both call sites pass a constant number, so it runs once, when the
    component mounts, and its cleanup runs when the component unmounts. *)

(** [const id = setInterval(() => savedRef.current(), delay);] *)
Definition useInterval (c : Callback) (delay : N) (w : World) : nat * World :=
  setInterval c delay w.

(** [return () => clearInterval(id);] *)
Definition useInterval_cleanup (i : nat) (w : World) : World :=
  clearInterval i w.

(** ** Rendering: mounting and unmounting [CakeAnimals] *)

(** First render of [CakeAnimals]: the [useState] initialisers, then the
    effect of [useInterval(..., 4000)]. *)
Definition mountCakeAnimals (h : Host) (images : list string) (w : World) : World :=
  let n := Engine.spotCount images in
  let spots := Engine.genSpots h (draws w) n in
  let '(i, w1) := useInterval CbPlacementTick 4000 (set_draws (draws w + 2 * n) w) in
  set_cakeAnimals
    (Some {| ca_length := n; ca_tick := 0; ca_spots := spots; ca_interval := i |}) w1.

(** Unmount: the cleanup of the effect. *)
Definition unmountCakeAnimals (a : CakeAnimalsInst) (w : World) : World :=
  set_cakeAnimals None (useInterval_cleanup (ca_interval a) w).

(** [{stage === "cake" && (<section> <CakeAnimals images={cakeImages} /> </section>)}] *)
Definition render (h : Host) (w : World) : World :=
  match stage w, cakeAnimals w with
  | cake, None => mountCakeAnimals h cakeImages w
  | cake, Some _ => w
  | _, Some a => unmountCakeAnimals a w
  | _, None => w
  end.

(** ** Timer callbacks and the event loop *)

(** The body of the interval callback of [CakeAnimals]:
    [setSpots(Array.from(...)); setTick((t) => t + 1);].  A state update on
    an instance that is no longer mounted is dropped (a case no run
    reaches, see [mounting_quiet]). *)
Definition placementTick (h : Host) (w : World) : World :=
  let w0 := set_placementTicks (S (placementTicks w)) w in
  match cakeAnimals w0 with
  | Some a =>
      set_cakeAnimals
        (Some {| ca_length := ca_length a; ca_tick := S (ca_tick a);
                 ca_spots := Engine.genSpots h (draws w0) (ca_length a);
                 ca_interval := ca_interval a |})
        (set_draws (draws w0 + 2 * ca_length a) w0)
  | None => w0
  end.

Definition runCallback (h : Host) (c : Callback) (w : World) : World :=
  match c with
  | CbSetStageGifts => setStage gifts w
  | CbToggleConfetti => setShowConfetti negb w
  | CbPlacementTick => placementTick h w
  end.

(** The host runs the timer [i] if it is still in the table and due, and
    React commits the updates its callback queued. *)
Definition fire (h : Host) (i : nat) (w : World) : World :=
  match lookupTimer i (timers w) with
  | Some t =>
      if (due t <=? now w)%N
      then render h (runCallback h (cb t) (rearm t w))
      else w
  | None => w
  end.

(** Ids of the timers that are due. *)
Definition dueNow (w : World) : list nat :=
  tid <$> filter (fun t => (due t <= now w)%N) (timers w).

(** One millisecond passes. *)
Definition tick_ms (h : Host) (w : World) : World :=
  let w1 := set_now (now w + 1)%N w in
  fold_left (fun w' i => fire h i w') (dueNow w1) w1.

(** [ms] milliseconds pass. *)
Definition elapse (h : Host) (ms : N) (w : World) : World :=
  N.iter ms (tick_ms h) w.

(** The initial values of the [useState] cells of [BirthdaySurprise], on a
    host with no timer yet. *)
Definition initialState : World :=
  {| stage := door; candlesLit := true; modalOpen := false; modalMsg := EmptyString;
     openedIds := ∅; showConfetti := true; _pendingGiftId := JSundefined;
     now := 0%N; timers := []; next_tid := 0;
     cakeAnimals := None; draws := 0; placementTicks := 0 |}.

(** The page after its first render: the effect of
    [useInterval(() => setShowConfetti((s) => !s), 5000)] has run. *)
Definition init : World :=
  snd (useInterval CbToggleConfetti 5000 initialState).

(** ** Operations

    The operations of the scene controller, as the closures the elements are
    wired to: [onEnter={handleEnter}], [Cake]'s [onClick],
    [onOpenGift={handleOpenGift}], [onClose={handleCloseModal}].  An
    operation invokes the closure of the last commit, which is the state [w]
    it starts from (so [Cake] was rendered with [lit={candlesLit w}]), and is
    followed by a commit. *)
Inductive Op :=
| enter
| blowCandles
| openGift (giftId : Z) (text : string)
| closeModal
| wait (ms : N).

Definition exec (h : Host) (o : Op) (w : World) : World :=
  match o with
  | enter => render h (handleEnter w)
  | blowCandles => render h (Cake_onClick (candlesLit w) w)
  | openGift i m => render h (handleOpenGift i m w)
  | closeModal => render h (handleCloseModal w)
  | wait ms => elapse h ms w
  end.

Definition run (h : Host) (ops : list Op) (w : World) : World :=
  fold_left (fun w' o => exec h o w') ops w.

(** ** User-interface events

    A click can only reach an element that is in the DOM.
    - The cake, inside [{stage === "cake" && ...}], and the gift boxes, one
      per entry of the catalog, inside [{stage === "gifts" && ...}], are plain
      conditional JSX: they are in the DOM exactly while the condition held
      at the last commit.
    - The door, inside [<AnimatePresence>{!opened && ...}</AnimatePresence>]
      with [opened = (stage !== "door")], is in the DOM while the stage is
      "door" and, after the commit that opens it, until its exit animation
      ([exit={{ opacity: 0 }}], with the library's default transition) has
      run; it keeps [onClick={onEnter}] meanwhile.  The animation is taken to
      be over when the gifts come on stage, which is 600 ms or more after the
      door was opened (the last theorem of this file); a click on the door is
      let through at any time before.
    - The modal's button and backdrop, inside
      [<AnimatePresence>{open && ...}</AnimatePresence>], likewise stay in
      the DOM, with [onClick={onClose}], while the modal leaves; a click on
      them is let through at any time. *)
Inductive UIEvent :=
| ClickDoor
| ClickCake
| ClickGift (k : nat)
| ClickModalClose
| Elapse (ms : N).

Definition dispatch (h : Host) (e : UIEvent) (w : World) : option World :=
  match e with
  | ClickDoor =>
      if decide (stage w = gifts) then None else Some (exec h enter w)
  | ClickCake =>
      if decide (stage w = cake) then Some (exec h blowCandles w) else None
  | ClickGift k =>
      if decide (stage w = gifts) then
        match gifts_catalog !! k with
        | Some g => Some (exec h (openGift (id g) (message g)) w)
        | None => None
        end
      else None
  | ClickModalClose => Some (exec h closeModal w)
  | Elapse ms => Some (exec h (wait ms) w)
  end.

Fixpoint ui_run (h : Host) (evs : list UIEvent) (w : World) : option World :=
  match evs with
  | [] => Some w
  | e :: evs' =>
      match dispatch h e w with
      | Some w' => ui_run h evs' w'
      | None => None
      end
  end.

(** A host with exact arithmetic whose every draw is 1/2. *)
Definition exactHost : Host := {| fround := fun q => q; random := fun _ => (1 # 2)%Q |}.

(** Number of scheduled transitions to the gifts stage. *)
Definition pendingTransitions (w : World) : nat :=
  length (filter (fun t => cb t = CbSetStageGifts) (timers w)).

(** Number of live placement intervals. *)
Definition placementTimers (w : World) : nat :=
  length (filter (fun t => cb t = CbPlacementTick) (timers w)).

(** The stage moves forward by at most one scene, or stays. *)
Definition progresses (s s' : Stage) : Prop :=
  s' = s \/ (s = door /\ s' = cake) \/ (s = cake /\ s' = gifts).

(** *** Invariants of the timer table *)

(** Timer ids are pairwise distinct and below the next id to hand out. *)
Definition freshIds (w : World) : Prop :=
  NoDup (tid <$> timers w) /\ Forall (fun t => (tid t < next_tid w)%nat) (timers w).

(** The tree on screen agrees with the stage. *)
Definition rendered (w : World) : Prop :=
  match cakeAnimals w with
  | Some _ => stage w = cake
  | None => stage w <> cake
  end.

(** Every placement interval is the one of the mounted [CakeAnimals]. *)
Definition placementOwned (w : World) : Prop :=
  forall t, t ∈ timers w -> cb t = CbPlacementTick ->
    exists a, cakeAnimals w = Some a /\ tid t = ca_interval a.

(** No transition to the gifts is scheduled. *)
Definition idle (w : World) : Prop :=
  forall t, t ∈ timers w -> cb t <> CbSetStageGifts.

(** While the candles are lit no transition to the gifts is scheduled. *)
Definition litIdle (w : World) : Prop := candlesLit w = true -> idle w.

(** The cake is on stage and a transition to the gifts is scheduled for the
    instant [T], none for an earlier one. *)
Definition armed (T : N) (w : World) : Prop :=
  stage w = cake /\ freshIds w /\
  (exists t0, t0 ∈ timers w /\ cb t0 = CbSetStageGifts /\ due t0 = T) /\
  (forall t, t ∈ timers w -> cb t = CbSetStageGifts -> (T <= due t)%N).

(** The two invariants that tie the placement interval to the stage. *)
Definition mounting (w : World) : Prop := rendered w /\ placementOwned w.

(** The interval of a mounted [CakeAnimals] is in the timer table, with the
    period of 4000 ms. *)
Definition intervalLive (w : World) : Prop :=
  forall a, cakeAnimals w = Some a ->
    exists t, t ∈ timers w /\ tid t = ca_interval a /\
              cb t = CbPlacementTick /\ period t = Some 4000%N.

(** No placement interval is live and no [CakeAnimals] is mounted. *)
Definition quiet (w : World) : Prop :=
  stage w <> cake /\ cakeAnimals w = None /\
  forall t, t ∈ timers w -> cb t <> CbPlacementTick.

(** The timers of [w'] are timers of [w], possibly re-armed. *)
Definition timersFrom (w w' : World) : Prop :=
  forall t', t' ∈ timers w' ->
    exists t, t ∈ timers w /\ tid t = tid t' /\ cb t = cb t' /\ period t = period t'.

(** *** Invariants of sessions *)

(** The cells that only the click handlers write. *)
Definition sameSession (w w' : World) : Prop :=
  candlesLit w' = candlesLit w /\ modalOpen w' = modalOpen w /\
  modalMsg w' = modalMsg w /\ openedIds w' = openedIds w /\
  _pendingGiftId w' = _pendingGiftId w.

(** Until the door is opened the candles are lit. *)
Definition doorLit (w : World) : Prop := stage w = door -> candlesLit w = true.

(** The pending id and the opened ids are ids of the catalog. *)
Definition catalogIds (w : World) : Prop :=
  (forall i, _pendingGiftId w = JSnumber i -> 0 <= i < 8) /\
  (forall i, i ∈ openedIds w -> 0 <= i < 8).

Definition uiInv (w : World) : Prop :=
  freshIds w /\ litIdle w /\ mounting w /\ doorLit w /\ catalogIds w.

(** The scenes in order. *)
Definition stageRank (s : Stage) : nat :=
  match s with door => 0 | cake => 1 | gifts => 2 end.

(** The spots of a mounted [CakeAnimals] are an output of [genSpots]. *)
Definition spotsGenerated (h : Host) (w : World) : Prop :=
  forall a, cakeAnimals w = Some a ->
    ca_length a = Engine.spotCount cakeImages /\
    exists d, ca_spots a = Engine.genSpots h d (ca_length a).

(** A host that rounds to the nearest multiple of 1/1024 and whose draws
    run through the thousandths. *)
Definition gridHost : Host :=
  {| fround := fun q => (Qfloor (q * 1024 + (1 # 2)) # 1024)%Q;
     random := fun k => (Z.of_nat (k mod 1000) # 1000)%Q |}.

(** ** Utilities and the components that draw from them *)

(** [const rand = (min, max) => Math.random() * (max - min) + min], with [r]
    the value [Math.random()] returned and one rounding per operation. *)
Definition rand (h : Host) (r min max : Q) : Q :=
  fround h (fround h (r * fround h (max - min)) + min).

(** [const range = (n) => Array.from({ length: n }, (_, i) => i)] *)
Definition range (n : nat) : list nat := seq 0 n.

(** [Math.floor] *)
Definition Math_floor (q : Q) : Z := Qfloor q.

(** [{ id, hue, message }], the record [Gifts] builds for each box. *)
Record GiftBox := { box_id : Z; box_hue : Z; box_message : string }.

(** The [useMemo] of [Gifts]:
    [GIFT_MESSAGES.map((m, i) => ({ id: i, hue: Math.floor(rand(0, 360)), message: m }))];
    the box [i] consumes the draw [d + i]. *)
Definition Gifts_useMemo (h : Host) (d : nat) : list GiftBox :=
  imap (fun i m => {| box_id := Z.of_nat i;
                      box_hue := Math_floor (rand h (random h (d + i)) 0 360);
                      box_message := m |}) GIFT_MESSAGES.

(** The hue of the second gradient stop, [(g.hue + 40) % 360]. *)
Definition secondHue (hue : Z) : Z := Z.rem (hue + 40) 360.

Module Balloons.
(** [{ left, delay, scale }] *)
Record Balloon := { left : Q; delay : Q; scale : Q }.

(** The [useMemo] of [Balloons]:
    [range(count).map(() => ({ left: rand(0, 100), delay: rand(0, 6), scale: rand(0.7, 1.4) }))];
    the properties are evaluated in order, so the balloon [i] consumes the
    draws [d + 3i], [d + 3i + 1] and [d + 3i + 2].  The literals [0.7] and
    [1.4] are the doubles nearest to them. *)
Definition useMemo (h : Host) (d count : nat) : list Balloon :=
  (fun i => {| left := rand h (random h (d + 3 * i)) 0 100;
               delay := rand h (random h (d + 3 * i + 1)) 0 6;
               scale := rand h (random h (d + 3 * i + 2))
                          (fround h (7 # 10)) (fround h (14 # 10)) |})
  <$> range count.
End Balloons.

(** [spots[i]?.left ?? 0] and [spots[i]?.top ?? 0]: where the render of
    [CakeAnimals] puts its entry [i]. *)
Definition shownAt (spots : list Placement.Spot) (i : nat) : Placement.Spot :=
  match spots !! i with
  | Some s => s
  | None => {| Placement.left := 0; Placement.top := 0 |}
  end.

(** *** Further invariants *)

(** Number of live confetti intervals. *)
Definition confettiTimers (w : World) : nat :=
  length (filter (fun t => cb t = CbToggleConfetti) (timers w)).

(** The well-formedness every run keeps. *)
Definition wellFormed (w : World) : Prop :=
  freshIds w /\ mounting w /\ intervalLive w.

(** The modal is open exactly when a gift id is pending. *)
Definition modalPending (w : World) : Prop :=
  modalOpen w = true <-> exists i, _pendingGiftId w = JSnumber i.

(** While the candles are lit the gifts are not on stage and nothing is
    scheduled. *)
Definition litBeforeGifts (w : World) : Prop :=
  candlesLit w = true -> stage w <> gifts /\ idle w.

(** Every confetti interval is the one the page registered first. *)
Definition confettiOwned (w : World) : Prop :=
  forall t, t ∈ timers w -> cb t = CbToggleConfetti -> tid t = 0%nat.

(** At most one transition is scheduled, and none while the candles are lit. *)
Definition oneTransition (w : World) : Prop :=
  (pendingTransitions w <= if candlesLit w then 0 else 1)%nat.

(** The time that passes in a list of operations. *)
Definition totalWait (ops : list Op) : N :=
  fold_right (fun o acc => match o with wait ms => (ms + acc)%N | _ => acc end) 0%N ops.

(** Every timer of the callback [c] has the id [i]. *)
Definition ownedBy (c : Callback) (i : nat) (w : World) : Prop :=
  forall t, t ∈ timers w -> cb t = c -> tid t = i.

(** The interval of the callback [c], with id [i] and period [p], is next due
    at [D], and the observation [obs] of the state is [x]. *)
Definition tracked {X : Type} (c : Callback) (i : nat) (p : N)
    (stable : World -> Prop) (obs : World -> X) (x : X) (D : N) (w : World) : Prop :=
  wellFormed w /\ stable w /\ ownedBy c i w /\
  (exists t0, t0 ∈ timers w /\ tid t0 = i /\ cb t0 = c /\
              period t0 = Some p /\ due t0 = D) /\
  obs w = x.

(** The state once the timer [t] has run and React has committed. *)
Definition firedState (h : Host) (t : Timer) (w : World) : World :=
  render h (runCallback h (cb t) (rearm t w)).

(** On the cake stage with nothing scheduled. *)
Definition cakeIdle (w : World) : Prop := stage w = cake /\ idle w.

(** The placement ticks run so far, and the tick count of the mounted
    [CakeAnimals]. *)
Definition placementObs (w : World) : nat * option nat :=
  (placementTicks w, ca_tick <$> cakeAnimals w).

Definition placementStep (x : nat * option nat) : nat * option nat :=
  (S (fst x), S <$> snd x).

(** The door was opened at the instant [T0] or later: no transition to the
    gifts is due before [T0 + 600], and the gifts are not on stage before. *)
Definition openedSince (T0 : N) (w : World) : Prop :=
  freshIds w /\ (T0 <= now w)%N /\
  (forall t, t ∈ timers w -> cb t = CbSetStageGifts -> (T0 + 600 <= due t)%N) /\
  (stage w = gifts -> (T0 + 600 <= now w)%N).

(** The confetti interval is due at the next multiple of 5000 ms, and the
    flag is on during the even periods. *)
Definition confettiClock (w : World) : Prop :=
  exists q r, now w = (5000 * q + r)%N /\ (r < 5000)%N /\
    tracked CbToggleConfetti 0 5000 (fun _ => True) showConfetti
      (N.even q) (5000 * (q + 1))%N w.

(** * Properties *)

(** ** What rendering and the event loop leave alone *)

Lemma sameSession_refl w : sameSession w w.
Proof. repeat split. Qed.

Lemma sameSession_trans w1 w2 w3 :
  sameSession w1 w2 -> sameSession w2 w3 -> sameSession w1 w3.
Proof. unfold sameSession. intuition congruence. Qed.

Lemma fold_left_invariant {A B} (P : A -> Prop) (f : A -> B -> A) (l : list B) :
  (forall a b, P a -> P (f a b)) -> forall a, P a -> P (fold_left f l a).
Proof. intros Hf. induction l as [|b l IH]; simpl; auto. Qed.

Section Frame.
Context (h : Host).

Lemma render_stage w : stage (render h w) = stage w.
Proof. unfold render. destruct (stage w) eqn:E, (cakeAnimals w); simpl; auto. Qed.

Lemma render_sameSession w : sameSession w (render h w).
Proof.
  unfold render. destruct (stage w), (cakeAnimals w); repeat split.
Qed.

Lemma rearm_sameSession t w : sameSession w (rearm t w).
Proof. unfold rearm. destruct (period t); repeat split. Qed.

Lemma runCallback_sameSession c w : sameSession w (runCallback h c w).
Proof.
  destruct c; simpl; try (repeat split; fail).
  unfold placementTick; simpl. destruct (cakeAnimals w); repeat split.
Qed.

Lemma fire_sameSession i w : sameSession w (fire h i w).
Proof.
  unfold fire. destruct (lookupTimer i (timers w)) as [t|]; [|apply sameSession_refl].
  destruct (due t <=? now w)%N; [|apply sameSession_refl].
  eapply sameSession_trans; [apply rearm_sameSession|].
  eapply sameSession_trans; [apply runCallback_sameSession|].
  apply render_sameSession.
Qed.

Lemma tick_ms_sameSession w : sameSession w (tick_ms h w).
Proof.
  unfold tick_ms. apply (fold_left_invariant (sameSession w)).
  - intros a i Ha. eapply sameSession_trans; [exact Ha|apply fire_sameSession].
  - repeat split.
Qed.

Lemma elapse_sameSession ms w : sameSession w (elapse h ms w).
Proof.
  unfold elapse. apply (N.iter_invariant ms _ (tick_ms h) (sameSession w)).
  - intros x Hx. eapply sameSession_trans; [exact Hx|apply tick_ms_sameSession].
  - apply sameSession_refl.
Qed.

Lemma render_openedIds w : openedIds (render h w) = openedIds w.
Proof. apply render_sameSession. Qed.

Lemma elapse_openedIds ms w : openedIds (elapse h ms w) = openedIds w.
Proof. apply elapse_sameSession. Qed.

Lemma render_pending w : _pendingGiftId (render h w) = _pendingGiftId w.
Proof. apply render_sameSession. Qed.

Lemma render_modalOpen w : modalOpen (render h w) = modalOpen w.
Proof. apply render_sameSession. Qed.

Lemma render_modalMsg w : modalMsg (render h w) = modalMsg w.
Proof. apply render_sameSession. Qed.

Lemma render_candlesLit w : candlesLit (render h w) = candlesLit w.
Proof. apply render_sameSession. Qed.

(** Rendering twice changes nothing more. *)
Lemma render_idempotent w : render h (render h w) = render h w.
Proof.
  unfold render at 2.
  destruct (stage w) eqn:Es, (cakeAnimals w) eqn:Ea;
    unfold render; simpl; rewrite ?Es, ?Ea; reflexivity.
Qed.

Lemma exec_openedIds_mono o w : openedIds w ⊆ openedIds (exec h o w).
Proof.
  destruct o; simpl; rewrite ?render_openedIds, ?elapse_openedIds; try done.
  - unfold Cake_onClick. destruct (candlesLit w); done.
  - unfold handleCloseModal; simpl. destruct (_pendingGiftId w); simpl; set_solver.
Qed.

Lemma run_openedIds_mono ops w : openedIds w ⊆ openedIds (run h ops w).
Proof.
  revert w. induction ops as [|o ops IH]; intros w; simpl; [done|].
  etrans; [apply (exec_openedIds_mono o)|apply IH].
Qed.

End Frame.

Section Session.
Context (h : Host).

Lemma exec_openGift_pending i m w :
  _pendingGiftId (exec h (openGift i m) w) = JSnumber i.
Proof. simpl. rewrite render_pending. reflexivity. Qed.

Lemma exec_openGift_openedIds i m w :
  openedIds (exec h (openGift i m) w) = openedIds w.
Proof. simpl. rewrite render_openedIds. reflexivity. Qed.


Lemma handleCloseModal_pending w : _pendingGiftId (handleCloseModal w) = JSundefined.
Proof.
  unfold handleCloseModal.
  destruct (_pendingGiftId (setModalOpen false w)) eqn:E; [exact E|reflexivity].
Qed.

Lemma handleCloseModal_openedIds w :
  openedIds (handleCloseModal w) =
  match _pendingGiftId w with
  | JSnumber i => {[ i ]} ∪ openedIds w
  | JSundefined => openedIds w
  end.
Proof.
  unfold handleCloseModal.
  change (_pendingGiftId (setModalOpen false w)) with (_pendingGiftId w).
  destruct (_pendingGiftId w); reflexivity.
Qed.

Lemma exec_closeModal_pending w : _pendingGiftId (exec h closeModal w) = JSundefined.
Proof. simpl. rewrite render_pending. apply handleCloseModal_pending. Qed.

Lemma exec_closeModal_openedIds w :
  openedIds (exec h closeModal w) =
  match _pendingGiftId w with
  | JSnumber i => {[ i ]} ∪ openedIds w
  | JSundefined => openedIds w
  end.
Proof. simpl. rewrite render_openedIds. apply handleCloseModal_openedIds. Qed.

Lemma exec_enter_openedIds w : openedIds (exec h enter w) = openedIds w.
Proof. simpl. rewrite render_openedIds. reflexivity. Qed.

Lemma exec_blowCandles_openedIds w : openedIds (exec h blowCandles w) = openedIds w.
Proof.
  simpl. rewrite render_openedIds. unfold Cake_onClick. by destruct (candlesLit w).
Qed.

Lemma exec_wait_openedIds ms w : openedIds (exec h (wait ms) w) = openedIds w.
Proof. apply elapse_openedIds. Qed.

Lemma run_cons o ops w : run h (o :: ops) w = run h ops (exec h o w).
Proof. reflexivity. Qed.

Lemma run_nil w : run h [] w = w.
Proof. reflexivity. Qed.

Lemma run_app ops1 ops2 w : run h (ops1 ++ ops2) w = run h ops2 (run h ops1 w).
Proof. unfold run. apply fold_left_app. Qed.

End Session.

Create Rewrite HintDb session.
#[local] Hint Rewrite run_cons run_nil exec_openGift_pending exec_openGift_openedIds
  exec_closeModal_pending exec_closeModal_openedIds exec_enter_openedIds
  exec_blowCandles_openedIds exec_wait_openedIds : session.

(** ** The modal and the set of opened gifts *)

(** C4. [closeModal()] sets the modal's open flag to false; when a pending
    gift id is set it inserts that id into the set of opened gifts and clears
    the pending id; when none is set it changes nothing but the open flag, so
    the set of opened gifts is left as it was.  The handler is a total
    function: it has no path that raises. *)
Theorem closeModal_commits_pending (w : World) :
  modalOpen (handleCloseModal w) = false /\
  match _pendingGiftId w with
  | JSnumber i =>
      openedIds (handleCloseModal w) = {[ i ]} ∪ openedIds w /\
      _pendingGiftId (handleCloseModal w) = JSundefined
  | JSundefined =>
      handleCloseModal w = setModalOpen false w /\
      openedIds (handleCloseModal w) = openedIds w /\
      _pendingGiftId (handleCloseModal w) = JSundefined
  end.
Proof.
  unfold handleCloseModal; simpl.
  destruct (_pendingGiftId w) as [|i] eqn:E; simpl; rewrite ?E; auto.
Qed.

(** C5. [openGift(id, m)] sets the modal to open, its text to [m] and the
    pending id to [id], whatever the set of opened gifts holds; it does not
    touch that set, and committing an id that is already a member leaves the
    set as it is. *)
Theorem openGift_sets_modal (w : World) (i : Z) (m : string) :
  modalOpen (handleOpenGift i m w) = true /\
  modalMsg (handleOpenGift i m w) = m /\
  _pendingGiftId (handleOpenGift i m w) = JSnumber i /\
  openedIds (handleOpenGift i m w) = openedIds w /\
  (let w1 := handleCloseModal (handleOpenGift i m w) in
   let w2 := handleOpenGift i m w1 in
   modalOpen w2 = true /\ modalMsg w2 = m /\ _pendingGiftId w2 = JSnumber i /\
   openedIds w2 = openedIds w1 /\
   openedIds (handleCloseModal w2) = openedIds w1 /\
   size (openedIds (handleCloseModal w2)) = size (openedIds w1)).
Proof.
  repeat split; simpl.
  - unfold handleCloseModal; simpl. set_solver.
  - unfold handleCloseModal; simpl. f_equal. set_solver.
Qed.

(** C10. Two [openGift] calls with no [closeModal] between them: the pending
    id is overwritten, the next [closeModal] inserts the second id only, and
    the first id is in the set afterwards only if it equals the second or was
    there before; a further [closeModal] inserts nothing. *)
Theorem openGift_overwrites_pending (h : Host) (w : World) (id1 id2 : Z) (m1 m2 : string) :
  let w2 := run h [openGift id1 m1; openGift id2 m2] w in
  let w3 := run h [openGift id1 m1; openGift id2 m2; closeModal] w in
  _pendingGiftId w2 = JSnumber id2 /\
  openedIds w2 = openedIds w /\
  openedIds w3 = {[ id2 ]} ∪ openedIds w /\
  _pendingGiftId w3 = JSundefined /\
  (id1 ∈ openedIds w3 <-> id1 = id2 \/ id1 ∈ openedIds w) /\
  openedIds (run h [closeModal] w3) = openedIds w3.
Proof.
  cbv zeta. autorewrite with session. repeat split; try set_solver.
Qed.

(** C6. The set of opened gifts only grows, and insertion is idempotent:
    after [openGift(i, m)] and [closeModal()] the id [i] is a member, it
    remains one after any further operations (clicks or elapsed time),
    no operation removes a member, opening and closing the same gift again
    leaves the set as it is, and doing so twice for gift 3 from the initial
    page gives the set whose only element is 3. *)
Theorem openedIds_grow_only (h : Host) (w : World) (i : Z) (m : string) (ops : list Op) :
  let w1 := run h [openGift i m; closeModal] w in
  i ∈ openedIds w1 /\
  i ∈ openedIds (run h ops w1) /\
  openedIds w ⊆ openedIds (run h ops w) /\
  openedIds (run h [openGift i m; closeModal] w1) = openedIds w1 /\
  elements (openedIds
    (run h [openGift 3 m; closeModal; openGift 3 m; closeModal] init)) = [3] /\
  size (openedIds
    (run h [openGift 3 m; closeModal; openGift 3 m; closeModal] init)) = 1%nat.
Proof.
  assert (E : forall v, openedIds (run h [openGift i m; closeModal] v)
                        = {[ i ]} ∪ openedIds v).
  { intros v. autorewrite with session. reflexivity. }
  assert (E3 : openedIds
     (run h [openGift 3 m; closeModal; openGift 3 m; closeModal] init) = {[ 3 ]}).
  { autorewrite with session. simpl. set_solver. }
  cbv zeta. rewrite !E, E3.
  split; [set_solver|]. split.
  { apply (run_openedIds_mono h ops). rewrite E. set_solver. }
  split; [apply run_openedIds_mono|]. split; [set_solver|].
  split; [apply elements_singleton|apply size_singleton].
Qed.

(** ** The timer table *)

Lemma lookupTimer_Some i l t : lookupTimer i l = Some t -> t ∈ l /\ tid t = i.
Proof.
  induction l as [|t' l IH]; simpl; [discriminate|].
  destruct (Nat.eqb (tid t') i) eqn:E.
  - intros [= ->]. split; [left|]. by apply Nat.eqb_eq.
  - intros Hl. destruct (IH Hl). split; [by right|done].
Qed.

Lemma lookupTimer_NoDup l t :
  NoDup (tid <$> l) -> t ∈ l -> lookupTimer (tid t) l = Some t.
Proof.
  induction l as [|t' l IH]; simpl; intros Hnd Hin.
  - by apply elem_of_nil in Hin.
  - apply NoDup_cons in Hnd as [Hnotin Hnd].
    destruct (Nat.eqb (tid t') (tid t)) eqn:E.
    + apply Nat.eqb_eq in E. apply elem_of_cons in Hin as [->|Hin]; [done|].
      exfalso. apply Hnotin. rewrite E. by apply list_elem_of_fmap_2.
    + apply elem_of_cons in Hin as [->|Hin]; [|by apply IH].
      rewrite Nat.eqb_refl in E. discriminate.
Qed.

Lemma NoDup_tid_inj l t1 t2 :
  NoDup (tid <$> l) -> t1 ∈ l -> t2 ∈ l -> tid t1 = tid t2 -> t1 = t2.
Proof.
  intros Hnd H1 H2 E.
  pose proof (lookupTimer_NoDup l t1 Hnd H1) as L1.
  pose proof (lookupTimer_NoDup l t2 Hnd H2) as L2.
  rewrite E in L1. congruence.
Qed.

Lemma rearm_other_fields t w :
  stage (rearm t w) = stage w /\ cakeAnimals (rearm t w) = cakeAnimals w /\
  next_tid (rearm t w) = next_tid w /\ now (rearm t w) = now w /\
  placementTicks (rearm t w) = placementTicks w /\ draws (rearm t w) = draws w.
Proof. unfold rearm. destruct (period t); repeat split. Qed.

Lemma rearm_elem t w t' :
  t' ∈ timers (rearm t w) ->
  (t' ∈ timers w /\ tid t' <> tid t) \/
  (tid t' = tid t /\
   exists t0 p, t0 ∈ timers w /\ tid t0 = tid t /\ period t = Some p /\
     t' = {| tid := tid t0; due := (now w + p)%N; period := period t0; cb := cb t0 |}).
Proof.
  unfold rearm. destruct (period t) as [p|]; simpl.
  - intros Hin. apply list_elem_of_fmap in Hin as (t0 & -> & Hin).
    destruct (Nat.eqb (tid t0) (tid t)) eqn:E.
    + apply Nat.eqb_eq in E. right. split; [done|]. by exists t0, p.
    + apply Nat.eqb_neq in E. by left.
  - intros Hin. apply list_elem_of_filter in Hin as [Hne Hin]. by left.
Qed.

Lemma rearm_keeps t w t0 :
  t0 ∈ timers w -> tid t0 <> tid t -> t0 ∈ timers (rearm t w).
Proof.
  intros Hin Hne. unfold rearm. destruct (period t) as [p|]; simpl.
  - apply list_elem_of_fmap. exists t0. split; [|done].
    apply Nat.eqb_neq in Hne. by rewrite Hne.
  - by apply list_elem_of_filter.
Qed.

Lemma rearm_timersFrom t w : timersFrom w (rearm t w).
Proof.
  intros t' Hin. apply rearm_elem in Hin as [[Hin _]|(_ & t0 & p & Hin & _ & _ & ->)].
  - by exists t'.
  - by exists t0.
Qed.

Lemma rearm_tids t w : sublist (tid <$> timers (rearm t w)) (tid <$> timers w).
Proof.
  unfold rearm. destruct (period t) as [p|]; simpl.
  - rewrite <- list_fmap_compose.
    erewrite list_fmap_ext; [reflexivity|].
    intros _ t' _. simpl. by destruct (Nat.eqb (tid t') (tid t)).
  - apply fmap_sublist, sublist_filter.
Qed.

Lemma timersFrom_fresh w w' :
  timersFrom w w' -> next_tid w' = next_tid w ->
  Forall (fun t => (tid t < next_tid w)%nat) (timers w) ->
  Forall (fun t => (tid t < next_tid w')%nat) (timers w').
Proof.
  intros Hfrom En Hall. apply Forall_forall. intros t' Hin.
  destruct (Hfrom t' Hin) as (t & Ht & Et & _).
  rewrite Forall_forall in Hall. rewrite En, <- Et. by apply Hall.
Qed.

Lemma append_freshIds w w' t :
  freshIds w -> timers w' = timers w ++ [t] -> tid t = next_tid w ->
  next_tid w' = S (next_tid w) -> freshIds w'.
Proof.
  unfold freshIds. intros [Hnd Hall] -> Et ->. rewrite Forall_forall in Hall. split.
  - rewrite fmap_app. apply NoDup_app. split; [done|]. split.
    + intros i Hi Hi'. apply list_elem_of_singleton in Hi'. subst i.
      apply list_elem_of_fmap in Hi as (t0 & E0 & Hin).
      specialize (Hall t0 Hin). simpl in Hall. lia.
    + apply NoDup_singleton.
  - apply Forall_app. split.
    + apply Forall_forall. intros t0 Hin. specialize (Hall t0 Hin). simpl in Hall. lia.
    + apply Forall_singleton. lia.
Qed.

Section EventLoop.
Context (h : Host).

Lemma runCallback_other_fields c w :
  timers (runCallback h c w) = timers w /\
  next_tid (runCallback h c w) = next_tid w /\
  now (runCallback h c w) = now w.
Proof.
  destruct c; simpl; try (repeat split; fail).
  unfold placementTick; simpl. destruct (cakeAnimals w); repeat split.
Qed.

Lemma fire_cases i w :
  fire h i w = w \/
  exists t, t ∈ timers w /\ tid t = i /\ (due t <= now w)%N /\
    fire h i w = render h (runCallback h (cb t) (rearm t w)).
Proof.
  unfold fire. destruct (lookupTimer i (timers w)) as [t|] eqn:E; [|by left].
  destruct (N.leb_spec (due t) (now w)); [|by left].
  right. apply lookupTimer_Some in E as [Hin Ei]. by exists t.
Qed.

(** A property that does not read the clock and that every firing timer
    preserves holds after any lapse of time. *)
Lemma tick_ms_invariant (P : World -> Prop) :
  (forall n w, P w -> P (set_now n w)) ->
  (forall i w, P w -> P (fire h i w)) ->
  forall w, P w -> P (tick_ms h w).
Proof.
  intros Hnow Hfire w Hw. unfold tick_ms.
  apply fold_left_invariant; [intros; by apply Hfire|by apply Hnow].
Qed.

Lemma elapse_invariant (P : World -> Prop) :
  (forall n w, P w -> P (set_now n w)) ->
  (forall i w, P w -> P (fire h i w)) ->
  forall ms w, P w -> P (elapse h ms w).
Proof.
  intros Hnow Hfire ms w Hw. unfold elapse.
  apply N.iter_invariant; [|done]. intros; by apply tick_ms_invariant.
Qed.

Lemma elapse_add a b w : elapse h (a + b) w = elapse h a (elapse h b w).
Proof. unfold elapse. apply N.iter_add. Qed.

Lemma elapse_1 w : elapse h 1 w = tick_ms h w.
Proof. reflexivity. Qed.

Lemma elapse_succ ms w : elapse h (N.succ ms) w = tick_ms h (elapse h ms w).
Proof. unfold elapse. apply N.iter_succ. Qed.

(** *** Fresh timer ids *)

Lemma clearInterval_freshIds i w : freshIds w -> freshIds (clearInterval i w).
Proof.
  intros [Hnd Hall]. split; simpl.
  - refine (sublist_NoDup _ _ Hnd _). apply fmap_sublist, sublist_filter.
  - apply Forall_forall. intros t Hin.
    apply list_elem_of_filter in Hin as [_ Hin].
    rewrite Forall_forall in Hall. by apply Hall.
Qed.

Lemma render_freshIds w : freshIds w -> freshIds (render h w).
Proof.
  intros [Hnd Hall]. unfold render.
  destruct (stage w), (cakeAnimals w) as [a|]; try (by split).
  - apply (clearInterval_freshIds (ca_interval a) w). by split.
  - eapply (append_freshIds w); [by split|reflexivity..].
  - apply (clearInterval_freshIds (ca_interval a) w). by split.
Qed.

Lemma rearm_freshIds t w : freshIds w -> freshIds (rearm t w).
Proof.
  intros [Hnd Hall]. split.
  - exact (sublist_NoDup _ _ Hnd (rearm_tids t w)).
  - apply (timersFrom_fresh w); [apply rearm_timersFrom|apply rearm_other_fields|done].
Qed.

Lemma runCallback_freshIds c w : freshIds w -> freshIds (runCallback h c w).
Proof.
  unfold freshIds. destruct (runCallback_other_fields c w) as (-> & -> & _). done.
Qed.

Lemma fire_freshIds i w : freshIds w -> freshIds (fire h i w).
Proof.
  intros Hw. destruct (fire_cases i w) as [->|(t & _ & _ & _ & ->)]; [done|].
  by apply render_freshIds, runCallback_freshIds, rearm_freshIds.
Qed.

Lemma elapse_freshIds ms w : freshIds w -> freshIds (elapse h ms w).
Proof.
  apply elapse_invariant; [intros n v Hv; exact Hv|apply fire_freshIds].
Qed.

Lemma setTimeout_freshIds c d w : freshIds w -> freshIds (setTimeout c d w).
Proof. intros Hw. eapply (append_freshIds w); [done|reflexivity..]. Qed.

Lemma exec_freshIds o w : freshIds w -> freshIds (exec h o w).
Proof.
  intros Hw. destruct o; simpl; try (apply render_freshIds; exact Hw).
  - apply render_freshIds. unfold Cake_onClick.
    destruct (candlesLit w); [|done]. by apply setTimeout_freshIds.
  - apply render_freshIds. unfold handleCloseModal.
    destruct (_pendingGiftId (setModalOpen false w)); exact Hw.
  - by apply elapse_freshIds.
Qed.

End EventLoop.

(** ** Mounting, unmounting and the placement interval *)

Section Mounting.
Context (h : Host).

Lemma render_cases w :
  (rendered w /\ render h w = w) \/
  (stage w = cake /\ cakeAnimals w = None /\
   render h w = mountCakeAnimals h cakeImages w) \/
  (stage w <> cake /\ exists a, cakeAnimals w = Some a /\
   render h w = unmountCakeAnimals a w).
Proof.
  unfold render, rendered.
  destruct (stage w) eqn:Es, (cakeAnimals w) as [a|] eqn:Ea;
    try (left; split; [congruence|reflexivity]).
  - right; right. split; [congruence|]. by exists a.
  - right; left. done.
  - right; right. split; [congruence|]. by exists a.
Qed.

Lemma render_rendered w : rendered (render h w).
Proof.
  destruct (render_cases w) as [[Hr ->]|[(Es & Ea & ->)|(Es & a & Ea & ->)]];
    [done|exact Es|exact Es].
Qed.

Lemma render_rendered_id w : rendered w -> render h w = w.
Proof.
  unfold rendered, render.
  destruct (cakeAnimals w), (stage w); congruence.
Qed.

Lemma render_placementOwned w : placementOwned w -> placementOwned (render h w).
Proof.
  intros Hown.
  destruct (render_cases w) as [[Hr ->]|[(Es & Ea & ->)|(Es & a & Ea & ->)]]; [done| |].
  - intros t Hin Hcb. simpl in Hin. apply elem_of_app in Hin as [Hin|Hin].
    + destruct (Hown t Hin Hcb) as (a & Ea' & _). congruence.
    + apply list_elem_of_singleton in Hin. subst t. simpl. eauto.
  - intros t Hin Hcb. simpl in Hin.
    apply list_elem_of_filter in Hin as [Hne Hin].
    destruct (Hown t Hin Hcb) as (a' & Ea' & Et). congruence.
Qed.

(** Rendering schedules no transition to the gifts. *)
Lemma render_transitions w t :
  t ∈ timers (render h w) -> cb t = CbSetStageGifts -> t ∈ timers w.
Proof.
  destruct (render_cases w) as [[Hr ->]|[(Es & Ea & ->)|(Es & a & Ea & ->)]]; [done| |].
  - simpl. intros Hin Hcb. apply elem_of_app in Hin as [Hin|Hin]; [done|].
    apply list_elem_of_singleton in Hin. subst t. discriminate.
  - simpl. intros Hin _. by apply list_elem_of_filter in Hin as [_ Hin].
Qed.

(** While the cake is on stage rendering removes no timer. *)
Lemma render_cake_keeps w t :
  stage w = cake -> t ∈ timers w -> t ∈ timers (render h w).
Proof.
  intros Es Hin.
  destruct (render_cases w) as [[Hr ->]|[(_ & Ea & ->)|(Es' & _)]]; [done| |done].
  simpl. apply elem_of_app. by left.
Qed.

Lemma render_cake_elem w t :
  t ∈ timers (render h w) -> t ∈ timers w \/ cb t = CbPlacementTick.
Proof.
  destruct (render_cases w) as [[Hr ->]|[(Es & Ea & ->)|(Es & a & Ea & ->)]];
    [by left| |].
  - simpl. intros Hin. apply elem_of_app in Hin as [Hin|Hin]; [by left|].
    apply list_elem_of_singleton in Hin. subst t. by right.
  - simpl. intros Hin. apply list_elem_of_filter in Hin as [_ Hin]. by left.
Qed.

Lemma render_now w : now (render h w) = now w.
Proof.
  destruct (render_cases w) as [[Hr ->]|[(Es & Ea & ->)|(Es & a & Ea & ->)]];
    reflexivity.
Qed.

Lemma runCallback_placementOwned c w :
  placementOwned w -> placementOwned (runCallback h c w).
Proof.
  intros Hown. destruct c; try exact Hown.
  simpl. unfold placementTick; simpl.
  destruct (cakeAnimals w) as [a|] eqn:Ea; [|exact Hown].
  intros t Hin Hcb. destruct (Hown t Hin Hcb) as (a' & Ea' & Et).
  simpl. eexists. split; [reflexivity|]. simpl. congruence.
Qed.

Lemma rearm_placementOwned t w : placementOwned w -> placementOwned (rearm t w).
Proof.
  intros Hown t' Hin Hcb.
  destruct (rearm_timersFrom t w t' Hin) as (t0 & Hin0 & Et & Ecb & _).
  destruct (Hown t0 Hin0) as (a & Ea & Ei); [congruence|].
  exists a. destruct (rearm_other_fields t w) as (_ & -> & _). split; congruence.
Qed.

Lemma fire_placementOwned i w : placementOwned w -> placementOwned (fire h i w).
Proof.
  intros Hw. destruct (fire_cases h i w) as [->|(t & _ & _ & _ & ->)]; [done|].
  by apply render_placementOwned, runCallback_placementOwned, rearm_placementOwned.
Qed.

Lemma fire_rendered i w : rendered w -> rendered (fire h i w).
Proof.
  intros Hw. destruct (fire_cases h i w) as [->|(t & _ & _ & _ & ->)]; [done|].
  apply render_rendered.
Qed.

Lemma elapse_mounting ms w : mounting w -> mounting (elapse h ms w).
Proof.
  apply elapse_invariant.
  - intros n v Hv; exact Hv.
  - intros i v [Hr Ho]. split; [by apply fire_rendered|by apply fire_placementOwned].
Qed.

Lemma exec_mounting o w : mounting w -> mounting (exec h o w).
Proof.
  intros [Hr Ho]. destruct o; simpl; try (split; [apply render_rendered|]).
  - by apply render_placementOwned.
  - apply render_placementOwned. unfold Cake_onClick.
    destruct (candlesLit w); [|done].
    intros t Hin Hcb. simpl in Hin. apply elem_of_app in Hin as [Hin|Hin].
    + by apply Ho.
    + apply list_elem_of_singleton in Hin. subst t. discriminate.
  - by apply render_placementOwned.
  - apply render_placementOwned. unfold handleCloseModal.
    destruct (_pendingGiftId (setModalOpen false w)); exact Ho.
  - by apply elapse_mounting.
Qed.

Lemma init_mounting : mounting init.
Proof.
  split; [discriminate|]. intros t Hin Hcb. simpl in Hin.
  apply list_elem_of_singleton in Hin. subst t. discriminate.
Qed.

Lemma init_freshIds : freshIds init.
Proof.
  split; simpl.
  - apply NoDup_singleton.
  - apply Forall_singleton. simpl. lia.
Qed.

Lemma run_mounting ops w : mounting w -> mounting (run h ops w).
Proof.
  revert w. induction ops as [|o ops IH]; intros w Hw; [done|].
  simpl. by apply IH, exec_mounting.
Qed.

Lemma run_freshIds ops w : freshIds w -> freshIds (run h ops w).
Proof.
  revert w. induction ops as [|o ops IH]; intros w Hw; [done|].
  simpl. by apply IH, exec_freshIds.
Qed.

(** Off the cake stage nothing is mounted and no placement interval is live. *)
Lemma mounting_quiet w : mounting w -> stage w <> cake -> quiet w.
Proof.
  intros [Hr Ho] Hs. unfold rendered in Hr.
  destruct (cakeAnimals w) as [a|] eqn:Ea; [done|].
  split; [done|]. split; [done|].
  intros t Hin Hcb. destruct (Ho t Hin Hcb) as (a & Ea' & _). congruence.
Qed.

(** A quiet page stays quiet when a timer fires, and the count of placement
    ticks does not move. *)
Lemma fire_quiet i w :
  quiet w -> quiet (fire h i w) /\ placementTicks (fire h i w) = placementTicks w.
Proof.
  intros (Hs & Ha & Hno).
  destruct (fire_cases h i w) as [->|(t & Hin & _ & _ & ->)]; [done|].
  destruct (rearm_other_fields t w) as (Es & Ea & _ & _ & Ep & _).
  assert (Hq : quiet (runCallback h (cb t) (rearm t w)) /\
               placementTicks (runCallback h (cb t) (rearm t w)) = placementTicks w).
  { assert (Hno' : forall t', t' ∈ timers (rearm t w) -> cb t' <> CbPlacementTick).
    { intros t' Hin'. destruct (rearm_timersFrom t w t' Hin') as (t0 & Hin0 & _ & <- & _).
      by apply Hno. }
    specialize (Hno t Hin). destruct (cb t); [| |done]; unfold quiet; simpl.
    - split; [|done]. split; [discriminate|]. split; [congruence|exact Hno'].
    - split; [|done]. split; [congruence|]. split; [congruence|exact Hno']. }
  destruct Hq as [Hq Hp]. rewrite render_rendered_id; [done|].
  destruct Hq as (Hs' & Ha' & _). unfold rendered. by rewrite Ha'.
Qed.

Lemma elapse_quiet ms w :
  quiet w -> quiet (elapse h ms w) /\ placementTicks (elapse h ms w) = placementTicks w.
Proof.
  intros Hq.
  apply (elapse_invariant h (fun v => quiet v /\ placementTicks v = placementTicks w));
    [| |done].
  - intros n v Hv; exact Hv.
  - intros i v [Hv Hp]. destruct (fire_quiet i v Hv) as [Hv' Hp']. split; congruence.
Qed.

End Mounting.

(** ** The delayed transition to the gifts *)

Section Transition.
Context (h : Host).

Lemma runCallback_stage c w :
  c <> CbSetStageGifts -> stage (runCallback h c w) = stage w.
Proof.
  destruct c; [done|reflexivity|]. intros _. simpl. unfold placementTick; simpl.
  by destruct (cakeAnimals w).
Qed.

Lemma fire_stage i w : stage (fire h i w) = stage w \/ stage (fire h i w) = gifts.
Proof.
  destruct (fire_cases h i w) as [->|(t & _ & _ & _ & ->)]; [by left|].
  rewrite render_stage. destruct (rearm_other_fields t w) as (Es & _).
  destruct (decide (cb t = CbSetStageGifts)) as [->|Hne]; [by right|].
  left. rewrite runCallback_stage; done.
Qed.

Lemma fire_gifts i w : stage w = gifts -> stage (fire h i w) = gifts.
Proof. intros Hs. destruct (fire_stage i w); congruence. Qed.

Lemma elapse_gifts ms w : stage w = gifts -> stage (elapse h ms w) = gifts.
Proof.
  apply (elapse_invariant h (fun v => stage v = gifts)).
  - intros n v Hv; exact Hv.
  - intros i v. apply fire_gifts.
Qed.

Lemma elapse_stage ms w :
  stage (elapse h ms w) = stage w \/ stage (elapse h ms w) = gifts.
Proof.
  apply (elapse_invariant h (fun v => stage v = stage w \/ stage v = gifts)).
  - intros n v Hv; exact Hv.
  - intros i v [Hv|Hv]; destruct (fire_stage i v); [left|right|right|right]; congruence.
  - by left.
Qed.

(** One firing of a timer that is not a transition: the stage, the fresh
    ids, the clock and the other timers are kept, and no transition is added. *)
Lemma fired_other t w :
  let w' := render h (runCallback h (cb t) (rearm t w)) in
  freshIds w -> t ∈ timers w -> cb t <> CbSetStageGifts ->
  stage w' = stage w /\ freshIds w' /\ now w' = now w /\
  (forall t', t' ∈ timers w' -> cb t' = CbSetStageGifts -> t' ∈ timers w) /\
  (stage w = cake -> forall t0, t0 ∈ timers w -> tid t0 <> tid t -> t0 ∈ timers w').
Proof.
  intros w' Hf Hin Hcb. subst w'.
  destruct (rearm_other_fields t w) as (Es & _ & _ & En & _).
  destruct (runCallback_other_fields h (cb t) (rearm t w)) as (Et & _ & En').
  assert (Es' : stage (runCallback h (cb t) (rearm t w)) = stage w).
  { rewrite runCallback_stage; done. }
  split; [by rewrite render_stage|].
  split; [by apply render_freshIds, runCallback_freshIds, rearm_freshIds|].
  split; [rewrite render_now; congruence|]. split.
  - intros t' Hin' Hcb'. apply render_transitions in Hin'; [|done].
    rewrite Et in Hin'.
    apply rearm_elem in Hin' as [[Hin' _]|(Eid & t0 & p & Hin0 & Eid0 & _ & ->)]; [done|].
    simpl in Hcb'. destruct Hf as [Hnd _].
    assert (t0 = t) by (by apply (NoDup_tid_inj (timers w))). congruence.
  - intros Hs t0 Hin0 Hne. apply render_cake_keeps; [congruence|].
    rewrite Et. by apply rearm_keeps.
Qed.

Lemma fire_idle i w :
  freshIds w -> idle w ->
  freshIds (fire h i w) /\ idle (fire h i w) /\ stage (fire h i w) = stage w.
Proof.
  intros Hf Hidle.
  destruct (fire_cases h i w) as [->|(t & Hin & _ & _ & ->)]; [done|].
  destruct (fired_other t w Hf Hin (Hidle t Hin)) as (Es & Hf' & _ & Hg & _).
  split; [done|]. split; [|done].
  intros t' Hin' Hcb'. apply (Hidle t'); [by apply Hg|done].
Qed.

Lemma elapse_idle ms w :
  freshIds w -> idle w -> idle (elapse h ms w) /\ stage (elapse h ms w) = stage w.
Proof.
  intros Hf Hidle.
  enough (freshIds (elapse h ms w) /\ idle (elapse h ms w) /\
          stage (elapse h ms w) = stage w) by tauto.
  apply (elapse_invariant h (fun v => freshIds v /\ idle v /\ stage v = stage w));
    [| |done].
  - intros n v Hv; exact Hv.
  - intros i v (Hfv & Hiv & Hsv).
    destruct (fire_idle i v Hfv Hiv) as (? & ? & ?).
    split; [done|]. split; [done|congruence].
Qed.

Lemma fire_armed_early T i w :
  armed T w -> (now w < T)%N -> armed T (fire h i w) /\ now (fire h i w) = now w.
Proof.
  intros (Hs & Hf & (t0 & Hin0 & Hcb0 & Hdue0) & Hmin) Hnow.
  destruct (fire_cases h i w) as [->|(t & Hin & _ & Hdue & ->)].
  { split; [|done]. split; [done|]. split; [done|]. split; [by exists t0|done]. }
  assert (Hcb : cb t <> CbSetStageGifts).
  { intros Hcb. specialize (Hmin t Hin Hcb). lia. }
  destruct (fired_other t w Hf Hin Hcb) as (Es & Hf' & En & Hg & Hkeep).
  split; [|done]. split; [congruence|]. split; [done|]. split.
  - exists t0. split; [|done]. apply Hkeep; [done..|].
    intros E. destruct Hf as [Hnd _].
    assert (t0 = t) by (by apply (NoDup_tid_inj (timers w))). congruence.
  - intros t' Hin' Hcb'. apply Hmin; [by apply Hg|done].
Qed.

Lemma tick_ms_armed_early T w :
  armed T w -> (now w + 1 < T)%N ->
  armed T (tick_ms h w) /\ now (tick_ms h w) = (now w + 1)%N.
Proof.
  intros Ha Hnow. unfold tick_ms.
  apply (fold_left_invariant (fun v => armed T v /\ now v = (now w + 1)%N)).
  - intros v i [Hv En]. destruct (fire_armed_early T i v Hv) as [Hv' En']; [lia|].
    split; congruence.
  - split; [exact Ha|reflexivity].
Qed.

Lemma elapse_armed_early T ms w :
  armed T w -> (now w + ms < T)%N ->
  armed T (elapse h ms w) /\ now (elapse h ms w) = (now w + ms)%N.
Proof.
  intros Ha. induction ms as [|ms IH] using N.peano_ind; intros Hnow.
  - split; [done|]. simpl. lia.
  - rewrite elapse_succ. destruct IH as [Ha' En]; [lia|].
    destruct (tick_ms_armed_early T (elapse h ms w) Ha') as [Ha'' En'']; [lia|].
    split; [done|]. lia.
Qed.

(** The timers due at an instant are run in turn; if a transition is among
    them, the stage is the gifts once all have run. *)
Lemma fold_fire_transition (l : list nat) : forall w,
  stage w = gifts \/
  (stage w = cake /\ freshIds w /\
   exists t0, t0 ∈ timers w /\ cb t0 = CbSetStageGifts /\
              (due t0 <= now w)%N /\ tid t0 ∈ l) ->
  stage (fold_left (fun w' i => fire h i w') l w) = gifts.
Proof.
  induction l as [|i l IH]; intros w Hw; simpl.
  - destruct Hw as [Hs|(_ & _ & t0 & _ & _ & _ & Hin)]; [done|].
    by apply elem_of_nil in Hin.
  - apply IH. destruct Hw as [Hs|(Hs & Hf & t0 & Hin0 & Hcb0 & Hdue0 & Hl)].
    { left. by apply fire_gifts. }
    destruct (decide (i = tid t0)) as [->|Hne].
    + left. unfold fire. destruct Hf as [Hnd _].
      rewrite (lookupTimer_NoDup _ _ Hnd Hin0).
      apply N.leb_le in Hdue0. rewrite Hdue0, render_stage, Hcb0. reflexivity.
    + apply elem_of_cons in Hl as [Hl|Hl]; [congruence|].
      destruct (fire_cases h i w) as [->|(t & Hin & Ei & _ & ->)].
      { right. split; [done|]. split; [done|]. by exists t0. }
      destruct (decide (cb t = CbSetStageGifts)) as [Hcb|Hcb].
      { left. rewrite render_stage, Hcb. reflexivity. }
      destruct (fired_other t w Hf Hin Hcb) as (Es & Hf' & En & _ & Hkeep).
      right. split; [congruence|]. split; [done|].
      exists t0. split; [apply Hkeep; congruence|]. split; [done|].
      split; [rewrite En; done|done].
Qed.

Lemma tick_ms_armed_due T w :
  armed T w -> (now w + 1 = T)%N -> stage (tick_ms h w) = gifts.
Proof.
  intros (Hs & Hf & (t0 & Hin0 & Hcb0 & Hdue0) & _) Hnow. unfold tick_ms.
  apply fold_fire_transition. right. split; [done|]. split; [done|].
  exists t0. split; [done|]. split; [done|]. simpl. split; [lia|].
  unfold dueNow. apply list_elem_of_fmap_2, list_elem_of_filter.
  split; [simpl; lia|done].
Qed.

Lemma elapse_armed_due T ms w :
  armed T w -> (now w < T)%N -> (T <= now w + ms)%N -> stage (elapse h ms w) = gifts.
Proof.
  intros Ha Hlt Hle.
  replace ms with ((ms - (T - now w)) + (1 + (T - now w - 1)))%N by lia.
  rewrite !elapse_add, elapse_1. apply elapse_gifts.
  destruct (elapse_armed_early T (T - now w - 1) w Ha) as [Ha' En]; [lia|].
  apply (tick_ms_armed_due T); [done|]. lia.
Qed.

(** *** Lit candles mean no scheduled transition *)

Lemma render_idle w : idle w -> idle (render h w).
Proof.
  intros Hi t Hin Hcb. apply (Hi t); [by apply (render_transitions h)|done].
Qed.

Lemma exec_litIdle o w : freshIds w -> litIdle w -> litIdle (exec h o w).
Proof.
  intros Hf Hl. destruct o; simpl.
  - intros Hc. rewrite render_candlesLit in Hc. apply render_idle, Hl, Hc.
  - intros Hc. rewrite render_candlesLit in Hc. unfold Cake_onClick in *.
    destruct (candlesLit w) eqn:E; [discriminate|]. by apply render_idle, Hl.
  - intros Hc. rewrite render_candlesLit in Hc. apply render_idle, Hl, Hc.
  - intros Hc. rewrite render_candlesLit in Hc. unfold handleCloseModal in *.
    destruct (_pendingGiftId (setModalOpen false w)); apply render_idle, Hl, Hc.
  - intros Hc. destruct (elapse_sameSession h ms w) as (Ec & _).
    apply elapse_idle; [done|]. apply Hl. congruence.
Qed.

Lemma run_litIdle ops w :
  freshIds w -> litIdle w -> litIdle (run h ops w).
Proof.
  revert w. induction ops as [|o ops IH]; intros w Hf Hl; [done|].
  simpl. apply IH; [by apply exec_freshIds|by apply exec_litIdle].
Qed.

Lemma init_litIdle : litIdle init.
Proof.
  intros _ t Hin. simpl in Hin. apply list_elem_of_singleton in Hin. by subst t.
Qed.

(** Blowing the lit candles on the cake stage arms the transition. *)
Lemma blowCandles_arms w :
  freshIds w -> litIdle w -> stage w = cake -> candlesLit w = true ->
  armed (now w + 600) (exec h blowCandles w) /\
  now (exec h blowCandles w) = now w /\
  candlesLit (exec h blowCandles w) = false.
Proof.
  intros Hf Hl Hs Hc. simpl. unfold Cake_onClick. rewrite Hc.
  rewrite render_now, render_candlesLit. split; [|done].
  split; [by rewrite render_stage|].
  split; [by apply render_freshIds, setTimeout_freshIds|]. split.
  - exists {| tid := next_tid w; due := (now w + 600)%N; period := None;
              cb := CbSetStageGifts |}.
    split; [|split; reflexivity].
    apply render_cake_keeps; [done|]. apply elem_of_app. right.
    apply list_elem_of_singleton. reflexivity.
  - intros t Hin Hcb. apply render_transitions in Hin; [|done].
    apply elem_of_app in Hin as [Hin|Hin].
    + by destruct (Hl Hc t Hin).
    + apply list_elem_of_singleton in Hin. subst t. reflexivity.
Qed.

End Transition.

(** ** Sessions driven by the user interface *)

Lemma gifts_catalog_ids : id <$> gifts_catalog = seqZ 0 8.
Proof. reflexivity. Qed.

Lemma gifts_catalog_range k g : gifts_catalog !! k = Some g -> 0 <= id g < 8.
Proof.
  intros Hk. assert (Hi : (id <$> gifts_catalog) !! k = Some (id g)).
  { rewrite list_lookup_fmap, Hk. reflexivity. }
  rewrite gifts_catalog_ids in Hi. apply lookup_seqZ in Hi. lia.
Qed.

Lemma idle_no_transition w : idle w -> pendingTransitions w = 0%nat.
Proof.
  intros Hi. unfold pendingTransitions.
  rewrite (elem_of_nil_inv (filter (fun t => cb t = CbSetStageGifts) (timers w))); [done|].
  intros t Hin. apply list_elem_of_filter in Hin as [Hcb Hin]. by apply (Hi t).
Qed.

Section UISessions.
Context (h : Host).

(** What a dispatched event does, as an operation. *)
Lemma dispatch_exec e w w' :
  dispatch h e w = Some w' ->
  match e with
  | ClickDoor => stage w <> gifts /\ w' = exec h enter w
  | ClickCake => stage w = cake /\ w' = exec h blowCandles w
  | ClickGift k =>
      stage w = gifts /\
      exists g, gifts_catalog !! k = Some g /\ w' = exec h (openGift (id g) (message g)) w
  | ClickModalClose => w' = exec h closeModal w
  | Elapse ms => w' = exec h (wait ms) w
  end.
Proof.
  destruct e; simpl.
  - destruct (decide (stage w = gifts)); [discriminate|]. by intros [= <-].
  - destruct (decide (stage w = cake)); [|discriminate]. by intros [= <-].
  - destruct (decide (stage w = gifts)); [|discriminate].
    destruct (gifts_catalog !! k) as [g|] eqn:Eg; [|discriminate].
    intros [= <-]. split; [done|]. by exists g.
  - by intros [= <-].
  - by intros [= <-].
Qed.

Lemma dispatch_is_exec e w w' :
  dispatch h e w = Some w' -> exists o, w' = exec h o w.
Proof.
  intros Hd. apply dispatch_exec in Hd. destruct e.
  - destruct Hd as [_ ->]. by eexists.
  - destruct Hd as [_ ->]. by eexists.
  - destruct Hd as (_ & g & _ & ->). by eexists.
  - subst w'. by eexists.
  - subst w'. by eexists.
Qed.

Lemma ui_run_invariant (P : World -> Prop) :
  (forall e w w', P w -> dispatch h e w = Some w' -> P w') ->
  forall evs w w', P w -> ui_run h evs w = Some w' -> P w'.
Proof.
  intros Hstep evs. induction evs as [|e evs IH]; intros w w' Hw; simpl.
  - by intros [= <-].
  - destruct (dispatch h e w) as [w1|] eqn:Ed; [|discriminate].
    apply IH. by apply (Hstep e w).
Qed.

Lemma ui_run_app evs1 evs2 w :
  ui_run h (evs1 ++ evs2) w =
  match ui_run h evs1 w with Some w1 => ui_run h evs2 w1 | None => None end.
Proof.
  revert w. induction evs1 as [|e evs1 IH]; intros w; simpl; [done|].
  destruct (dispatch h e w); [apply IH|done].
Qed.

(** Every session of the user interface is a run of operations. *)
Lemma ui_run_is_run evs w w' :
  ui_run h evs w = Some w' -> exists ops, w' = run h ops w.
Proof.
  revert w. induction evs as [|e evs IH]; intros w; simpl.
  - intros [= <-]. by exists [].
  - destruct (dispatch h e w) as [w1|] eqn:Ed; [|discriminate].
    intros Hr. destruct (IH _ Hr) as [ops ->].
    destruct (dispatch_is_exec e w w1 Ed) as [o ->]. by exists (o :: ops).
Qed.

Lemma init_uiInv : uiInv init.
Proof.
  split; [apply init_freshIds|]. split; [apply init_litIdle|].
  split; [apply init_mounting|]. split; [done|]. split.
  - discriminate.
  - intros i Hi. simpl in Hi. set_solver.
Qed.

Lemma exec_stage_click o w :
  match o with
  | enter => stage (exec h o w) = cake
  | wait _ => True
  | _ => stage (exec h o w) = stage w
  end.
Proof.
  destruct o; simpl; rewrite ?render_stage; try done.
  - unfold Cake_onClick. by destruct (candlesLit w).
  - unfold handleCloseModal. by destruct (_pendingGiftId (setModalOpen false w)).
Qed.

Lemma dispatch_uiInv e w w' : uiInv w -> dispatch h e w = Some w' -> uiInv w'.
Proof.
  intros (Hf & Hl & Hm & Hd & Hp & Ho) Hdisp.
  destruct (dispatch_is_exec e w w' Hdisp) as [o Eo].
  split; [subst w'; by apply exec_freshIds|].
  split; [subst w'; by apply exec_litIdle|].
  split; [subst w'; by apply exec_mounting|]. clear Eo o.
  apply dispatch_exec in Hdisp. destruct e.
  - destruct Hdisp as [Hs ->]. split.
    + intros E. pose proof (exec_stage_click enter w) as E'. simpl in *. congruence.
    + split; simpl; [rewrite render_pending|rewrite render_openedIds]; done.
  - destruct Hdisp as [Hs ->]. split.
    + intros E. pose proof (exec_stage_click blowCandles w) as E'. simpl in *. congruence.
    + split; simpl; [rewrite render_pending|rewrite render_openedIds];
        unfold Cake_onClick; by destruct (candlesLit w).
  - destruct Hdisp as (Hs & g & Hg & ->). split.
    + intros E. pose proof (exec_stage_click (openGift (id g) (message g)) w) as E'.
      simpl in *. congruence.
    + split.
      * intros i. rewrite exec_openGift_pending. intros [= <-].
        by apply (gifts_catalog_range k).
      * intros i. rewrite exec_openGift_openedIds. apply Ho.
  - subst w'. split.
    + intros E. pose proof (exec_stage_click closeModal w) as E'.
      simpl in E, E'. rewrite E' in E. rewrite <- (Hd E). simpl.
      rewrite render_candlesLit. unfold handleCloseModal.
      by destruct (_pendingGiftId (setModalOpen false w)).
    + split.
      * intros i. by rewrite exec_closeModal_pending.
      * intros i. rewrite exec_closeModal_openedIds.
        destruct (_pendingGiftId w) as [|j] eqn:Ej; [by apply Ho|].
        intros [Hi|Hi]%elem_of_union; [|by apply Ho].
        apply elem_of_singleton in Hi. subst i. by apply Hp.
  - subst w'. simpl. destruct (elapse_sameSession h ms w) as (Ec & _ & _ & Eo & Ep).
    split.
    + intros E. rewrite Ec. apply Hd.
      destruct (elapse_stage h ms w) as [E'|E']; congruence.
    + split; intros i; [rewrite Ep; apply Hp|rewrite Eo; apply Ho].
Qed.

Lemma ui_run_uiInv evs w w' : uiInv w -> ui_run h evs w = Some w' -> uiInv w'.
Proof. apply ui_run_invariant. intros e v v'. apply dispatch_uiInv. Qed.

(** One event of the user interface moves the stage forward or not at all. *)
Lemma dispatch_progresses e w w' :
  uiInv w -> dispatch h e w = Some w' -> progresses (stage w) (stage w').
Proof.
  intros (Hf & Hl & Hm & Hd & _) Hdisp. apply dispatch_exec in Hdisp. destruct e.
  - destruct Hdisp as [Hs ->]. pose proof (exec_stage_click enter w) as E.
    simpl in E. unfold progresses. simpl. rewrite E.
    destruct (stage w); [by right; left|by left|done].
  - destruct Hdisp as [Hs ->]. left. apply (exec_stage_click blowCandles w).
  - destruct Hdisp as (Hs & g & _ & ->). left.
    apply (exec_stage_click (openGift (id g) (message g)) w).
  - subst w'. left. apply (exec_stage_click closeModal w).
  - subst w'. simpl. destruct (stage w) eqn:Es.
    + left. rewrite <- Es.
      apply elapse_idle; [done|]. apply Hl, Hd, Es.
    + destruct (elapse_stage h ms w) as [E|E]; rewrite E, ?Es; [by left|].
      right; right. done.
    + left. by apply elapse_gifts.
Qed.

Lemma progresses_rank s s' : progresses s s' -> (stageRank s <= stageRank s')%nat.
Proof.
  intros [->|[[-> ->]|[-> ->]]]; simpl; lia.
Qed.

Lemma ui_run_stage_monotone evs w w' :
  uiInv w -> ui_run h evs w = Some w' ->
  (stageRank (stage w) <= stageRank (stage w'))%nat.
Proof.
  revert w. induction evs as [|e evs IH]; intros w Hw; simpl.
  - by intros [= <-].
  - destruct (dispatch h e w) as [w1|] eqn:Ed; [|discriminate].
    intros Hr. transitivity (stageRank (stage w1)).
    + by apply progresses_rank, (dispatch_progresses e).
    + apply IH; [by apply (dispatch_uiInv e w)|done].
Qed.

(** On the gifts stage the user interface never brings the cake back. *)
Lemma dispatch_gifts_quiet e w w' :
  quiet w -> stage w = gifts -> dispatch h e w = Some w' ->
  quiet w' /\ stage w' = gifts /\ placementTicks w' = placementTicks w.
Proof.
  intros Hq Hs Hdisp. apply dispatch_exec in Hdisp.
  assert (Hr : forall v, stage v = stage w -> cakeAnimals v = cakeAnimals w ->
                 render h v = v).
  { intros v E1 E2. apply render_rendered_id. unfold rendered.
    destruct Hq as (? & Ha & _). rewrite E2, Ha. congruence. }
  destruct e.
  - destruct Hdisp as [Hs' _]. done.
  - destruct Hdisp as [Hs' _]. congruence.
  - destruct Hdisp as (_ & g & _ & ->). simpl. rewrite Hr by done. done.
  - subst w'. simpl. unfold handleCloseModal.
    destruct (_pendingGiftId (setModalOpen false w)); rewrite Hr by done; done.
  - subst w'. simpl. destruct (elapse_quiet h ms w Hq) as [Hq' Ep].
    split; [done|]. split; [by apply elapse_gifts|done].
Qed.

Lemma ui_run_gifts_quiet evs w w' :
  quiet w -> stage w = gifts -> ui_run h evs w = Some w' ->
  quiet w' /\ stage w' = gifts /\ placementTicks w' = placementTicks w.
Proof.
  intros Hq Hs.
  apply (ui_run_invariant
    (fun v => quiet v /\ stage v = gifts /\ placementTicks v = placementTicks w));
    [|done].
  intros e v v' (Hv & Hsv & Hpv) Hd.
  destruct (dispatch_gifts_quiet e v v' Hv Hsv Hd) as (? & ? & ?).
  split; [done|]. split; [done|congruence].
Qed.

End UISessions.

(** ** The placement interval while the cake is on stage *)

Section IntervalLive.
Context (h : Host).

Lemma rearm_interval t w p :
  t ∈ timers w -> period t = Some p ->
  {| tid := tid t; due := (now w + p)%N; period := period t; cb := cb t |}
    ∈ timers (rearm t w).
Proof.
  intros Hin Hp. unfold rearm. rewrite Hp. simpl.
  apply list_elem_of_fmap. exists t. split; [|done]. by rewrite Nat.eqb_refl, Hp.
Qed.

Lemma rearm_intervalLive t w :
  freshIds w -> t ∈ timers w -> intervalLive w -> intervalLive (rearm t w).
Proof.
  intros [Hnd _] Hin Hlive a Ea.
  destruct (rearm_other_fields t w) as (_ & Eca & _). rewrite Eca in Ea.
  destruct (Hlive a Ea) as (t0 & Hin0 & Et0 & Hcb0 & Hp0).
  destruct (decide (tid t0 = tid t)) as [E|Hne].
  - assert (t0 = t) by (by apply (NoDup_tid_inj (timers w))). subst t0.
    eexists. split; [by apply (rearm_interval t w 4000)|]. by simpl.
  - exists t0. split; [by apply rearm_keeps|done].
Qed.

Lemma runCallback_intervalLive c w :
  intervalLive w -> intervalLive (runCallback h c w).
Proof.
  intros Hlive. destruct c; try exact Hlive.
  simpl. unfold placementTick; simpl.
  destruct (cakeAnimals w) as [a|] eqn:Ea; [|exact Hlive].
  intros a' [= <-]. simpl. by apply Hlive.
Qed.

Lemma render_intervalLive w : intervalLive w -> intervalLive (render h w).
Proof.
  intros Hlive.
  destruct (render_cases h w) as [[Hr ->]|[(Es & Ea & ->)|(Es & a & Ea & ->)]]; [done| |].
  - intros a [= <-]. simpl. eexists. split.
    + apply elem_of_app. right. apply list_elem_of_singleton. reflexivity.
    + by simpl.
  - intros a' [=].
Qed.

Lemma fire_intervalLive i w :
  freshIds w -> intervalLive w -> intervalLive (fire h i w).
Proof.
  intros Hf Hw. destruct (fire_cases h i w) as [->|(t & Hin & _ & _ & ->)]; [done|].
  by apply render_intervalLive, runCallback_intervalLive, rearm_intervalLive.
Qed.

Lemma exec_intervalLive o w :
  freshIds w -> intervalLive w -> intervalLive (exec h o w).
Proof.
  intros Hf Hw. destruct o; simpl; try (apply render_intervalLive; exact Hw).
  - apply render_intervalLive. unfold Cake_onClick.
    destruct (candlesLit w); [|done].
    intros a Ea. destruct (Hw a Ea) as (t & Hin & Ht). exists t.
    split; [|done]. simpl. apply elem_of_app. by left.
  - apply render_intervalLive. unfold handleCloseModal.
    destruct (_pendingGiftId (setModalOpen false w)); exact Hw.
  - enough (freshIds (elapse h ms w) /\ intervalLive (elapse h ms w)) by tauto.
    apply (elapse_invariant h (fun v => freshIds v /\ intervalLive v)); [| |done].
    + intros n v Hv; exact Hv.
    + intros i v [Hfv Hlv]. split; [by apply fire_freshIds|by apply fire_intervalLive].
Qed.

Lemma run_intervalLive ops w :
  freshIds w -> intervalLive w -> intervalLive (run h ops w).
Proof.
  revert w. induction ops as [|o ops IH]; intros w Hf Hw; [done|].
  simpl. apply IH; [by apply exec_freshIds|by apply exec_intervalLive].
Qed.

Lemma init_intervalLive : intervalLive init.
Proof. intros a [=]. Qed.

End IntervalLive.

Lemma quiet_no_placementTimer w : quiet w -> placementTimers w = 0%nat.
Proof.
  intros (_ & _ & Hno). unfold placementTimers.
  rewrite (elem_of_nil_inv (filter (fun t => cb t = CbPlacementTick) (timers w))); [done|].
  intros t Hin. apply list_elem_of_filter in Hin as [Hcb Hin]. by apply (Hno t).
Qed.

(** ** The stage *)

(** C1, as stated, fails on [handleEnter]: the handler sets the stage to
    "cake" whatever the stage is.  Called once the gifts are on stage it
    moves the stage back to the cake, so it is not a no-op there. *)
Lemma enter_after_gifts_regresses :
  stage (run exactHost [enter; blowCandles; wait 600] init) = gifts /\
  stage (run exactHost [enter; blowCandles; wait 600; enter] init) = cake /\
  exec exactHost enter (run exactHost [enter; blowCandles; wait 600] init)
    <> run exactHost [enter; blowCandles; wait 600] init.
Proof.
  split; [vm_compute; reflexivity|]. split; [vm_compute; reflexivity|].
  intros E. apply (f_equal stage) in E. vm_compute in E. discriminate E.
Qed.

Lemma setStage_same w : setStage (stage w) w = w.
Proof. by destruct w. Qed.

(** Once the cake is on stage, [handleEnter] and the commit that follows
    change nothing. *)
Lemma enter_on_cake h w : rendered w -> stage w = cake -> exec h enter w = w.
Proof.
  intros Hr Hs. simpl. unfold handleEnter. rewrite <- Hs, setStage_same.
  by apply render_rendered_id.
Qed.

(** Of all calls, only [enter()] on the gifts stage moves the stage back. *)
Lemma exec_regresses_only_by_enter h o v :
  (stageRank (stage v) <= stageRank (stage (exec h o v)))%nat \/
  (o = enter /\ stage v = gifts).
Proof.
  pose proof (exec_stage_click h o v) as E. destruct o; simpl in *.
  - rewrite E. destruct (stage v); simpl; [left; lia|left; lia|by right].
  - left. by rewrite E.
  - left. by rewrite E.
  - left. by rewrite E.
  - left. destruct (elapse_stage h ms v) as [->| ->]; [done|].
    destruct (stage v); simpl; lia.
Qed.

(** C1, amended.  [handleEnter] sets the stage to "cake" unconditionally.
    Called while the cake is on stage it changes nothing; called while the
    gifts are on stage it moves the stage back, and of all calls this is the
    only one that ever does.  The door that calls it stays on the page, and
    can be clicked, while it leaves after having been opened: such a click
    finds the cake on stage and is a no-op.  In every session driven by the
    user interface (clicks on elements of the page and elapsed time) each
    event leaves the stage as it is or moves it from door to cake or from
    cake to gifts, and over any continuation of the session the stage never
    moves back. *)
Theorem stage_progresses_under_ui (h : Host) (evs evs' : list UIEvent) (w w' : World) :
  ui_run h evs init = Some w ->
  ui_run h evs' w = Some w' ->
  (stageRank (stage w) <= stageRank (stage w'))%nat /\
  (forall e w1, dispatch h e w = Some w1 -> progresses (stage w) (stage w1)) /\
  (forall v, stage (handleEnter v) = cake) /\
  (stage w = cake -> dispatch h ClickDoor w = Some w) /\
  (forall o v, (stageRank (stage v) <= stageRank (stage (exec h o v)))%nat \/
               (o = enter /\ stage v = gifts)).
Proof.
  intros Hw Hw'. pose proof (ui_run_uiInv h evs init w init_uiInv Hw) as Hinv.
  split; [by apply (ui_run_stage_monotone h evs')|].
  split; [intros e w1; by apply dispatch_progresses|].
  split; [reflexivity|]. split; [|apply exec_regresses_only_by_enter].
  intros Hs. unfold dispatch. destruct (decide (stage w = gifts)); [congruence|].
  f_equal. apply enter_on_cake; [|done]. apply Hinv.
Qed.

Lemma stage_progresses_under_ui_witness :
  let w := run exactHost [enter; blowCandles] init in
  let w' := run exactHost [enter; blowCandles; wait 600] init in
  ui_run exactHost [ClickDoor; ClickCake; ClickDoor] init = Some w /\
  ui_run exactHost [ClickDoor; Elapse 600] w = Some w' /\
  (stageRank (stage w) <= stageRank (stage w'))%nat /\
  (forall e w1, dispatch exactHost e w = Some w1 -> progresses (stage w) (stage w1)) /\
  (forall v, stage (handleEnter v) = cake) /\
  (stage w = cake -> dispatch exactHost ClickDoor w = Some w) /\
  (forall o v, (stageRank (stage v) <= stageRank (stage (exec exactHost o v)))%nat \/
               (o = enter /\ stage v = gifts)).
Proof.
  cbv zeta.
  split; [vm_compute; reflexivity|]. split; [vm_compute; reflexivity|].
  apply (stage_progresses_under_ui exactHost
           [ClickDoor; ClickCake; ClickDoor] [ClickDoor; Elapse 600]);
    vm_compute; reflexivity.
Defined.

(** ** Blowing the candles *)

Lemma handleBlowCandles_schedules w :
  pendingTransitions (handleBlowCandles w) = S (pendingTransitions w) /\
  length (timers (handleBlowCandles w)) = S (length (timers w)).
Proof.
  unfold pendingTransitions. simpl. rewrite filter_app, !length_app. simpl. lia.
Qed.

(** The closure of a commit with the candles lit, invoked [n] times before
    the next commit, calls the handler [n] times. *)
Lemma clicks_lit n w :
  candlesLit w = true ->
  stage (clicksBeforeCommit n w) = stage w /\
  cakeAnimals (clicksBeforeCommit n w) = cakeAnimals w /\
  pendingTransitions (clicksBeforeCommit n w) = (pendingTransitions w + n)%nat /\
  length (timers (clicksBeforeCommit n w)) = (length (timers w) + n)%nat /\
  candlesLit (clicksBeforeCommit n w) = match n with O => true | S _ => false end.
Proof.
  intros Hc. unfold clicksBeforeCommit. rewrite Hc.
  induction n as [|n (Es & Ea & Ep & El & _)].
  - simpl. rewrite !Nat.add_0_r. done.
  - rewrite Nat.iter_succ. set (v := Nat.iter n (Cake_onClick true) w) in *.
    change (Cake_onClick true v) with (handleBlowCandles v).
    destruct (handleBlowCandles_schedules v) as [E1 E2].
    rewrite E1, E2, Ep, El. simpl. rewrite Es, Ea. repeat split; lia.
Qed.

(** The closure of a commit with the candles out does nothing. *)
Lemma clicks_out n w : candlesLit w = false -> clicksBeforeCommit n w = w.
Proof.
  intros Hc. unfold clicksBeforeCommit. rewrite Hc.
  induction n as [|n IH]; [done|]. simpl. by rewrite IH.
Qed.

(** C2, as stated, fails on the cake's click closure.  The closure tests the
    prop [lit] of the render that created it: once it has put the candles
    out, the same closure, invoked again before React commits, calls the
    handler again.  It is then invoked with the candles out and is not a
    no-op, and two transitions to the gifts are scheduled instead of one. *)
Lemma blowCandles_twice_before_commit :
  let w := run exactHost [enter] init in
  let onClick := Cake_onClick (candlesLit w) in
  stage w = cake /\ candlesLit w = true /\
  candlesLit (onClick w) = false /\
  onClick (onClick w) <> onClick w /\
  pendingTransitions (onClick (onClick w)) = 2%nat /\
  length (timers (render exactHost (onClick (onClick w)))) = 4%nat /\
  stage (elapse exactHost 600 (render exactHost (onClick (onClick w)))) = gifts.
Proof.
  cbv zeta. split; [vm_compute; reflexivity|]. split; [vm_compute; reflexivity|].
  split; [vm_compute; reflexivity|]. split.
  - intros E. apply (f_equal pendingTransitions) in E. vm_compute in E. discriminate E.
  - split; [vm_compute; reflexivity|]. split; vm_compute; reflexivity.
Qed.

(** C2, amended.  [blowCandles()], the click on the cake, is guarded by the
    prop [lit] its closure was rendered with, once per commit.  A closure
    rendered with the candles out changes nothing, whatever the state.  In a
    state of any run where the candles are lit, two clicks with a commit
    between them give the state that one click gives, with the candles out
    and exactly one transition to the gifts scheduled; [n] invocations of the
    closure of that state before React commits schedule [n] transitions.  In
    a state where the candles are out the click changes nothing, however
    often the closure is invoked. *)
Theorem blowCandles_once_per_commit (h : Host) (ops : list Op) (n : nat) :
  let w := run h ops init in
  (forall v, Cake_onClick false v = v) /\
  if candlesLit w then
    run h [blowCandles; blowCandles] w = run h [blowCandles] w /\
    candlesLit (run h [blowCandles; blowCandles] w) = false /\
    pendingTransitions (run h [blowCandles; blowCandles] w) = 1%nat /\
    pendingTransitions (render h (clicksBeforeCommit n w)) = n
  else
    exec h blowCandles w = w /\ clicksBeforeCommit n w = w.
Proof.
  cbv zeta. set (w := run h ops init). split; [reflexivity|].
  assert (Hm : mounting w) by apply run_mounting, init_mounting.
  assert (Hl : litIdle w) by (apply run_litIdle; [apply init_freshIds|apply init_litIdle]).
  destruct Hm as [Hr _].
  destruct (candlesLit w) eqn:Ec.
  - assert (E1 : exec h blowCandles w = handleBlowCandles w).
    { simpl. unfold Cake_onClick. rewrite Ec. by apply render_rendered_id. }
    assert (E2 : exec h blowCandles (handleBlowCandles w) = handleBlowCandles w).
    { simpl. unfold Cake_onClick. simpl. by apply render_rendered_id. }
    rewrite !run_cons, !run_nil, E1, E2. split; [done|]. split; [done|].
    destruct (handleBlowCandles_schedules w) as [Ep _].
    split; [by rewrite Ep, idle_no_transition by auto|].
    destruct (clicks_lit n w Ec) as (Es & Ea & En & _).
    rewrite render_rendered_id.
    + by rewrite En, idle_no_transition by auto.
    + unfold rendered in *. by rewrite Ea, Es.
  - unfold exec, Cake_onClick. rewrite Ec.
    split; [by apply render_rendered_id|by apply clicks_out].
Qed.

(** The guard is in the cake's click closure; the handler itself schedules a
    transition at every call. *)
Lemma handleBlowCandles_unguarded w :
  pendingTransitions (handleBlowCandles (handleBlowCandles w)) =
  S (S (pendingTransitions w)).
Proof.
  unfold pendingTransitions. simpl. rewrite !filter_app, !length_app. simpl. lia.
Qed.

(** C3. When [blowCandles()] is invoked on the cake stage with the candles
    lit, the candles are out at once and the stage is still the cake; the
    stage stays the cake for every lapse of time shorter than 600 ms and is
    the gifts after every lapse of 600 ms or more. *)
Theorem blowCandles_effects_in_order (h : Host) (ops : list Op) (ms : N) :
  let w := run h ops init in
  stage w = cake -> candlesLit w = true ->
  let w' := exec h blowCandles w in
  candlesLit w' = false /\ stage w' = cake /\ now w' = now w /\
  candlesLit (elapse h ms w') = false /\
  stage (elapse h ms w') = if (ms <? 600)%N then cake else gifts.
Proof.
  cbv zeta. set (w := run h ops init). intros Hs Hc.
  assert (Hf : freshIds w) by apply run_freshIds, init_freshIds.
  assert (Hl : litIdle w) by (apply run_litIdle; [apply init_freshIds|apply init_litIdle]).
  destruct (blowCandles_arms h w Hf Hl Hs Hc) as (Ha & En & Ec').
  split; [done|]. split; [apply Ha|]. split; [done|]. split.
  - destruct (elapse_sameSession h ms (exec h blowCandles w)) as (-> & _). done.
  - destruct (N.ltb_spec ms 600).
    + apply (elapse_armed_early h (now w + 600)); [done|]. rewrite En. lia.
    + apply (elapse_armed_due h (now w + 600)); [done|rewrite En; lia..].
Qed.

Lemma blowCandles_effects_in_order_witness :
  let w := run exactHost [enter; wait 1234] init in
  let w' := exec exactHost blowCandles w in
  stage w = cake /\ candlesLit w = true /\
  (candlesLit w' = false /\ stage w' = cake /\ now w' = now w /\
   candlesLit (elapse exactHost 599 w') = false /\
   stage (elapse exactHost 599 w') = cake) /\
  (candlesLit w' = false /\ stage w' = cake /\ now w' = now w /\
   candlesLit (elapse exactHost 600 w') = false /\
   stage (elapse exactHost 600 w') = gifts).
Proof.
  cbv zeta. split; [vm_compute; reflexivity|]. split; [vm_compute; reflexivity|]. split.
  - apply (blowCandles_effects_in_order exactHost [enter; wait 1234] 599);
      vm_compute; reflexivity.
  - apply (blowCandles_effects_in_order exactHost [enter; wait 1234] 600);
      vm_compute; reflexivity.
Defined.

(** ** Gift ids *)

(** C7, as stated, fails: the handlers do not look at the range of the id.
    On the gifts stage, [openGift(8, ...)] followed by [closeModal()] records
    8, which is outside [0, 8), as opened. *)
Lemma out_of_range_id_is_recorded :
  let w := run exactHost [enter; blowCandles; wait 600] init in
  stage w = gifts /\ ~ (0 <= 8 < 8) /\ (8 ∉ openedIds w) /\
  (8 ∈ openedIds (run exactHost [openGift 8 "surprise"; closeModal] w)).
Proof.
  cbv zeta. split; [vm_compute; reflexivity|]. split; [lia|].
  autorewrite with session. change (openedIds init) with (∅ : gset Z).
  split; set_solver.
Qed.

(** C7, amended.  [openGift] and [closeModal] do no range check: whatever the
    number [i], after [openGift(i, m)] and [closeModal()] it is in the set of
    opened gifts.  The ids that reach the handlers through the gift boxes are
    the indices of the eight entries of the catalog, so in every session
    driven by the user interface all opened ids lie in [0, 8). *)
Theorem opened_ids_are_catalog_ids (h : Host) (evs : list UIEvent) (w : World) (j : Z) :
  ui_run h evs init = Some w ->
  j ∈ openedIds w ->
  0 <= j < 8 /\
  (forall v i m, openedIds (run h [openGift i m; closeModal] v) = {[ i ]} ∪ openedIds v).
Proof.
  intros Hw Hj. pose proof (ui_run_uiInv h evs init w init_uiInv Hw) as Hinv.
  destruct Hinv as (_ & _ & _ & _ & _ & Ho). split; [by apply Ho|].
  intros v i m. autorewrite with session. reflexivity.
Qed.

Lemma opened_ids_are_catalog_ids_witness :
  let w := run exactHost [enter; blowCandles; wait 600;
                          openGift 2 "Luôn khoẻ, luôn vui và cười thật tươi nhé! 😊";
                          closeModal] init in
  ui_run exactHost [ClickDoor; ClickCake; Elapse 600; ClickGift 2; ClickModalClose] init
    = Some w /\
  (2 ∈ openedIds w) /\
  0 <= 2 < 8 /\
  (forall v i m, openedIds (run exactHost [openGift i m; closeModal] v)
                 = {[ i ]} ∪ openedIds v).
Proof.
  cbv zeta.
  assert (Hrun : ui_run exactHost
            [ClickDoor; ClickCake; Elapse 600; ClickGift 2; ClickModalClose] init
          = Some (run exactHost [enter; blowCandles; wait 600;
                    openGift 2 "Luôn khoẻ, luôn vui và cười thật tươi nhé! 😊";
                    closeModal] init)) by (vm_compute; reflexivity).
  assert (Hin : 2 ∈ openedIds (run exactHost [enter; blowCandles; wait 600;
                    openGift 2 "Luôn khoẻ, luôn vui và cười thật tươi nhé! 😊";
                    closeModal] init)).
  { autorewrite with session. set_solver. }
  split; [exact Hrun|]. split; [exact Hin|].
  exact (opened_ids_are_catalog_ids exactHost _ _ 2 Hrun Hin).
Defined.

(** ** The placement interval *)

(** C9. The placement engine's interval, of period 4000 ms, is live only
    while the cake is on stage.  In a state of any run whose stage is the
    cake, [CakeAnimals] is mounted and its interval is in the timer table.
    In one whose stage is not the cake, [CakeAnimals] is unmounted and no
    placement interval is in the table: however much time elapses, no
    placement tick runs and nothing is mounted; and once the gifts are on
    stage this stays so through any further events of the user interface. *)
Theorem placement_interval_follows_stage
    (h : Host) (ops : list Op) (ms : N) (evs : list UIEvent) :
  let w := run h ops init in
  let off :=
    placementTimers w = 0%nat /\ cakeAnimals w = None /\
    placementTimers (elapse h ms w) = 0%nat /\
    cakeAnimals (elapse h ms w) = None /\
    placementTicks (elapse h ms w) = placementTicks w in
  match stage w with
  | cake =>
      exists a t, cakeAnimals w = Some a /\ t ∈ timers w /\
        tid t = ca_interval a /\ cb t = CbPlacementTick /\ period t = Some 4000%N
  | door => off
  | gifts =>
      off /\
      match ui_run h evs w with
      | Some w' =>
          placementTimers w' = 0%nat /\ cakeAnimals w' = None /\
          placementTicks w' = placementTicks w /\ stage w' = gifts
      | None => True
      end
  end.
Proof.
  cbv zeta. set (w := run h ops init).
  assert (Hm : mounting w) by apply run_mounting, init_mounting.
  assert (Hoff : stage w <> cake ->
    quiet w /\
    (placementTimers w = 0%nat /\ cakeAnimals w = None /\
     placementTimers (elapse h ms w) = 0%nat /\
     cakeAnimals (elapse h ms w) = None /\
     placementTicks (elapse h ms w) = placementTicks w)).
  { intros Hs. assert (Hq : quiet w) by (by apply mounting_quiet).
    destruct (elapse_quiet h ms w Hq) as [Hq' Ep]. split; [done|].
    split; [by apply quiet_no_placementTimer|]. split; [apply Hq|].
    split; [by apply quiet_no_placementTimer|]. split; [apply Hq'|done]. }
  destruct (stage w) eqn:Es.
  - apply Hoff. discriminate.
  - assert (Hl : intervalLive w).
    { apply run_intervalLive; [apply init_freshIds|apply init_intervalLive]. }
    destruct Hm as [Hr _]. unfold rendered in Hr.
    destruct (cakeAnimals w) as [a|] eqn:Ea; [|congruence].
    destruct (Hl a Ea) as (t & Ht). by exists a, t.
  - destruct Hoff as [Hq Hoff]; [discriminate|]. split; [exact Hoff|].
    destruct (ui_run h evs w) as [w'|] eqn:Er; [|done].
    destruct (ui_run_gifts_quiet h evs w w' Hq Es Er) as (Hqw & Esw & Epw).
    split; [by apply quiet_no_placementTimer|]. split; [apply Hqw|]. done.
Qed.

(** Two ticks run in 9000 ms on the cake stage; after the transition the
    count stays at two. *)
Lemma placement_ticks_example :
  let w := run exactHost [enter; wait 9000; blowCandles; wait 600] init in
  stage w = gifts /\ placementTicks w = 2%nat /\
  placementTimers (run exactHost [enter; wait 9000; blowCandles] init) = 1%nat /\
  placementTicks (elapse exactHost 20000 w) = 2%nat.
Proof. vm_compute. repeat split. Qed.

(** ** The placement engine *)

Module EngineFacts.
Import Placement Engine.

Lemma fround_between h (lo hi : Z) (q : Q) :
  roundingOK h -> - 2 ^ 53 <= lo <= 2 ^ 53 -> - 2 ^ 53 <= hi <= 2 ^ 53 ->
  (inject_Z lo <= q <= inject_Z hi)%Q ->
  (inject_Z lo <= fround h q <= inject_Z hi)%Q.
Proof.
  intros [Hmono Hexact] Hlo Hhi [H1 H2].
  pose proof (Hmono _ _ H1) as M1. pose proof (Hmono _ _ H2) as M2.
  pose proof (Hexact lo Hlo) as E1. pose proof (Hexact hi Hhi) as E2.
  split; lra.
Qed.

Lemma jittered_bound h (z : Z) (r : Q) :
  roundingOK h -> - 2 ^ 52 <= z <= 2 ^ 52 -> (0 <= r < 1)%Q ->
  (inject_Z z - 1 <= jittered h (inject_Z z) 1 r <= inject_Z z + 1)%Q.
Proof.
  intros Hr Hz Hrand. unfold jittered.
  assert (B1 : (inject_Z 0 <= fround h (r * 2) <= inject_Z 2)%Q).
  { apply fround_between; [done|lia|lia|]. change (inject_Z 0) with 0%Q.
    change (inject_Z 2) with 2%Q. lra. }
  change (inject_Z 0) with 0%Q in B1. change (inject_Z 2) with 2%Q in B1.
  assert (B2 : (inject_Z (-1) <= fround h (fround h (r * 2) - 1) <= inject_Z 1)%Q).
  { apply fround_between; [done|lia|lia|]. change (inject_Z (-1)) with (-1)%Q.
    change (inject_Z 1) with 1%Q. lra. }
  assert (B3 : (inject_Z (-1) <= fround h (fround h (fround h (r * 2) - 1) * 1)
                <= inject_Z 1)%Q).
  { apply fround_between; [done|lia|lia|]. lra. }
  change (inject_Z (-1)) with (-1)%Q in B3. change (inject_Z 1) with 1%Q in B3.
  assert (B4 : (inject_Z (z - 1)
                <= fround h (inject_Z z + fround h (fround h (fround h (r * 2) - 1) * 1))
                <= inject_Z (z + 1))%Q).
  { apply fround_between; [done|lia|lia|].
    rewrite inject_Z_plus. unfold Z.sub. rewrite inject_Z_plus, inject_Z_opp.
    change (inject_Z 1) with 1%Q.
    generalize (inject_Z z). intros a. lra. }
  rewrite inject_Z_plus in B4. unfold Z.sub in B4.
  rewrite inject_Z_plus, inject_Z_opp in B4.
  change (inject_Z 1) with 1%Q in B4.
  revert B4. generalize (inject_Z z). intros a B4. lra.
Qed.

Lemma spotCount_bounds images : (1 <= spotCount images <= 6)%nat.
Proof.
  unfold spotCount, entries, COUNT.
  destruct (Nat.eqb (Nat.min (length images) 6) 0) eqn:E0.
  - simpl. lia.
  - apply Nat.eqb_neq in E0. rewrite length_take.
    destruct (Nat.eqb _ 0) eqn:E1; [lia|]. apply Nat.eqb_neq in E1. lia.
Qed.

Lemma genSpots_lookup h d n i s :
  genSpots h d n !! i = Some s <-> s = spotAt h d i /\ (i < n)%nat.
Proof.
  unfold genSpots. rewrite list_lookup_fmap. split.
  - intros Hs. destruct (seq 0 n !! i) as [j|] eqn:Ej; [|discriminate].
    apply lookup_seq in Ej as [-> Hi]. simpl in Hs. by injection Hs as <-.
  - intros [-> Hi]. assert (Ej : seq 0 n !! i = Some i) by (by apply lookup_seq).
    rewrite Ej. reflexivity.
Qed.

Lemma genSpots_length h d n : length (genSpots h d n) = n.
Proof. unfold genSpots. by rewrite length_fmap, length_seq. Qed.

(** An index below 6 names its own zone, whose anchor has integer
    coordinates. *)
Lemma zone_own i :
  (i < 6)%nat ->
  ZONES !! i = Some (zone i) /\ (i mod 6 = i)%nat /\
  exists zx zy, zone i = {| x := inject_Z zx; y := inject_Z zy |} /\
    0 <= zx <= 100 /\ 0 <= zy <= 100.
Proof.
  intros Hi. rewrite (Nat.mod_small i 6 Hi).
  do 6 (destruct i as [|i];
        [split; [reflexivity|]; split; [reflexivity|];
         eexists _, _; split; [reflexivity|lia]|]).
  lia.
Qed.

Lemma spotAt_withinJitter h d i :
  roundingOK h -> randomOK h -> (i < 6)%nat -> withinJitter (zone i) (spotAt h d i).
Proof.
  intros Hr Hrand Hi. destruct (zone_own i Hi) as (_ & _ & zx & zy & Ez & Hx & Hy).
  unfold withinJitter, spotAt. rewrite Ez. simpl.
  split; apply jittered_bound; try done; lia.
Qed.

Lemma zones_distinct i j :
  (i < 6)%nat -> (j < 6)%nat -> i <> j -> zone i <> zone j.
Proof.
  intros Hi Hj Hne.
  do 6 (destruct i as [|i]; [do 6 (destruct j as [|j]; [done|]); lia|]). lia.
Qed.

Lemma zones_are_separated : zonesSeparated.
Proof.
  intros j k p q Hp Hq Hne.
  do 6 (destruct j as [|j];
        [do 6 (destruct k as [|k];
               [first [done | injection Hp as <-; injection Hq as <-; reflexivity]|]);
         discriminate|]).
  discriminate.
Qed.

Lemma zones_boxes_disjoint i j :
  (i < 6)%nat -> (j < 6)%nat -> i <> j -> boxesDisjoint (zone i) (zone j).
Proof.
  intros Hi Hj Hne. unfold boxesDisjoint.
  do 6 (destruct i as [|i];
        [do 6 (destruct j as [|j];
               [first [done
                      | left; reflexivity
                      | right; left; reflexivity
                      | right; right; left; reflexivity
                      | right; right; right; reflexivity]|]);
         lia|]).
  lia.
Qed.

(** A spot in the box of one zone is in the box of no other. *)
Lemma withinJitter_exclusive i j s :
  (i < 6)%nat -> (j < 6)%nat -> i <> j ->
  withinJitter (zone i) s -> ~ withinJitter (zone j) s.
Proof.
  intros Hi Hj Hne [[L1 L2] [T1 T2]] [[L1' L2'] [T1' T2']].
  destruct (zones_boxes_disjoint i j Hi Hj Hne) as [D|[D|[D|D]]]; lra.
Qed.

End EngineFacts.

Section SpotsOnScreen.
Import Placement Engine EngineFacts.
Context (h : Host).

Lemma render_spotsGenerated w : spotsGenerated h w -> spotsGenerated h (render h w).
Proof.
  intros Hw.
  destruct (render_cases h w) as [[Hr ->]|[(Es & Ea & ->)|(Es & a & Ea & ->)]]; [done| |].
  - intros a [= <-]. simpl. split; [reflexivity|]. by exists (draws w).
  - intros a' [=].
Qed.

Lemma runCallback_spotsGenerated c w :
  spotsGenerated h w -> spotsGenerated h (runCallback h c w).
Proof.
  intros Hw. destruct c; try exact Hw.
  simpl. unfold placementTick; simpl.
  destruct (cakeAnimals w) as [a|] eqn:Ea; [|exact Hw].
  intros a' [= <-]. simpl. destruct (Hw a Ea) as [El _]. split; [done|].
  by exists (draws w).
Qed.

Lemma fire_spotsGenerated i w : spotsGenerated h w -> spotsGenerated h (fire h i w).
Proof.
  intros Hw. destruct (fire_cases h i w) as [->|(t & _ & _ & _ & ->)]; [done|].
  apply render_spotsGenerated, runCallback_spotsGenerated.
  intros a Ea. apply Hw. by destruct (rearm_other_fields t w) as (_ & <- & _).
Qed.

Lemma exec_spotsGenerated o w : spotsGenerated h w -> spotsGenerated h (exec h o w).
Proof.
  intros Hw. destruct o; simpl; try (apply render_spotsGenerated; exact Hw).
  - apply render_spotsGenerated. unfold Cake_onClick. by destruct (candlesLit w).
  - apply render_spotsGenerated. unfold handleCloseModal.
    destruct (_pendingGiftId (setModalOpen false w)); exact Hw.
  - revert Hw. apply elapse_invariant; [intros n v Hv; exact Hv|apply fire_spotsGenerated].
Qed.

Lemma run_spotsGenerated ops w : spotsGenerated h w -> spotsGenerated h (run h ops w).
Proof.
  revert w. induction ops as [|o ops IH]; intros w Hw; [done|].
  simpl. by apply IH, exec_spotsGenerated.
Qed.

Lemma init_spotsGenerated : spotsGenerated h init.
Proof. intros a [=]. Qed.

End SpotsOnScreen.

Lemma entries_spotCount images :
  length (Engine.entries images) = Engine.spotCount images.
Proof.
  unfold Engine.spotCount. destruct (Nat.eqb _ 0) eqn:E0; [|done].
  apply Nat.eqb_eq in E0. revert E0. unfold Engine.entries, Engine.COUNT.
  destruct (Nat.eqb (Nat.min (length images) 6) 0) eqn:E1; [done|].
  apply Nat.eqb_neq in E1. rewrite length_take. lia.
Qed.

(** The positions an output of [genSpots] gives to the entities below 6. *)
Lemma genSpots_in_zone h d n i :
  Engine.roundingOK h -> Engine.randomOK h -> (i < n)%nat -> (n <= 6)%nat ->
  exists s, Engine.genSpots h d n !! i = Some s /\ s = Engine.spotAt h d i /\
    Engine.withinJitter (Engine.zone i) s /\
    forall j, (j < 6)%nat -> j <> i -> ~ Engine.withinJitter (Engine.zone j) s.
Proof.
  intros Hr Hrand Hi Hn. exists (Engine.spotAt h d i).
  assert (Hi6 : (i < 6)%nat) by lia.
  assert (Hin : Engine.withinJitter (Engine.zone i) (Engine.spotAt h d i))
    by (by apply EngineFacts.spotAt_withinJitter).
  split; [by apply EngineFacts.genSpots_lookup|]. split; [done|]. split; [done|].
  intros j Hj Hne. by apply (EngineFacts.withinJitter_exclusive i j).
Qed.

(** What one run of the interval callback of a mounted [CakeAnimals], and
    the commit that follows, leave on screen. *)
Lemma placement_tick_fired h t w a :
  stage w = cake -> cakeAnimals w = Some a -> cb t = CbPlacementTick ->
  cakeAnimals (firedState h t w) =
    Some {| ca_length := ca_length a; ca_tick := S (ca_tick a);
            ca_spots := Engine.genSpots h (draws w) (ca_length a);
            ca_interval := ca_interval a |} /\
  draws (firedState h t w) = (draws w + 2 * ca_length a)%nat /\
  placementTicks (firedState h t w) = S (placementTicks w).
Proof.
  intros Hs Ha Hcb. unfold firedState. rewrite Hcb.
  destruct (rearm_other_fields t w) as (Es & Ea & _ & _ & Ep & Ed).
  set (u := rearm t w) in *. rewrite Hs in Es. rewrite Ha in Ea.
  assert (E : runCallback h CbPlacementTick u =
              set_cakeAnimals
                (Some {| ca_length := ca_length a; ca_tick := S (ca_tick a);
                         ca_spots := Engine.genSpots h (draws w) (ca_length a);
                         ca_interval := ca_interval a |})
                (set_draws (draws w + 2 * ca_length a)
                   (set_placementTicks (S (placementTicks w)) u))).
  { simpl. unfold placementTick. simpl. by rewrite Ea, Ed, Ep. }
  rewrite E. rewrite render_rendered_id; [done|].
  unfold rendered. simpl. exact Es.
Qed.

(** C8. On every tick the placement engine computes, for each entity [i], a
    position inside the jitter box (1 point per axis, each axis on its own)
    around the anchor of zone [i], and inside the box of no other zone.  One
    call of the engine makes exactly one position per entity, of which there
    are between one and six; the entity's zone is its own index at every
    tick, two entities never have the same zone, and the jitter amplitude is
    less than half the distance between any two anchors.  After any run with
    the cake on stage every one of the six entities has such a position on
    screen, the 4000 ms interval of the engine is in the timer table, and
    when it fires every position is computed afresh, from random draws not
    used before. *)
Theorem spots_stay_in_their_zones (h : Host) (images : list string) (d : nat) :
  Engine.roundingOK h -> Engine.randomOK h ->
  let n := length (Engine.entries images) in
  let spots := Engine.genSpots h d (Engine.spotCount images) in
  length spots = n /\ (1 <= n <= 6)%nat /\
  (forall i, (i < n)%nat ->
     exists s, spots !! i = Some s /\ s = Engine.spotAt h d i /\
       Engine.ZONES !! i = Some (Engine.zone i) /\ (i mod 6 = i)%nat /\
       Engine.withinJitter (Engine.zone i) s /\
       forall j, (j < 6)%nat -> j <> i -> ~ Engine.withinJitter (Engine.zone j) s) /\
  (forall i j, (i < n)%nat -> (j < n)%nat -> i <> j ->
     (i mod 6 <> j mod 6)%nat /\ Engine.zone i <> Engine.zone j) /\
  Engine.zonesSeparated /\
  (forall ops a, cakeAnimals (run h ops init) = Some a ->
     let w := run h ops init in
     let m := length (Engine.entries cakeImages) in
     m = 6%nat /\ length (ca_spots a) = m /\
     (forall i, (i < m)%nat ->
        exists s, ca_spots a !! i = Some s /\
          Engine.withinJitter (Engine.zone i) s /\
          forall j, (j < 6)%nat -> j <> i -> ~ Engine.withinJitter (Engine.zone j) s) /\
     exists t, t ∈ timers w /\ cb t = CbPlacementTick /\ period t = Some 4000%N /\
       exists a', cakeAnimals (firedState h t w) = Some a' /\
         ca_spots a' = Engine.genSpots h (draws w) m /\
         draws (firedState h t w) = (draws w + 2 * m)%nat /\
         ca_tick a' = S (ca_tick a) /\
         forall i, (i < m)%nat ->
           exists s, ca_spots a' !! i = Some s /\
             s = Engine.spotAt h (draws w) i /\
             Engine.withinJitter (Engine.zone i) s).
Proof.
  intros Hr Hrand n spots. subst n spots.
  rewrite EngineFacts.genSpots_length, entries_spotCount.
  pose proof (EngineFacts.spotCount_bounds images) as Hn.
  split; [done|]. split; [done|]. split; [|split; [|split]].
  - intros i Hi.
    destruct (genSpots_in_zone h d (Engine.spotCount images) i Hr Hrand Hi)
      as (s & Hs & Es & Hin & Hex); [lia|].
    assert (Hi6 : (i < 6)%nat) by lia.
    destruct (EngineFacts.zone_own i Hi6) as (Hz & Hm & _).
    exists s. done.
  - intros i j Hi Hj Hne. split.
    + rewrite !Nat.mod_small by lia. done.
    + apply EngineFacts.zones_distinct; [lia|lia|done].
  - apply EngineFacts.zones_are_separated.
  - intros ops a Ea w m. subst m.
    change (length (Engine.entries cakeImages)) with 6%nat.
    destruct (run_spotsGenerated h ops init (init_spotsGenerated h) a Ea) as [El [d' Ed]].
    change (Engine.spotCount cakeImages) with 6%nat in El.
    assert (Hm : mounting w) by apply run_mounting, init_mounting.
    assert (Hl : intervalLive w).
    { apply run_intervalLive; [apply init_freshIds|apply init_intervalLive]. }
    assert (Hs : stage w = cake).
    { destruct Hm as [Hrd _]. unfold rendered in Hrd. fold w in Ea. by rewrite Ea in Hrd. }
    split; [done|]. split; [by rewrite Ed, EngineFacts.genSpots_length|]. split.
    + intros i Hi. rewrite Ed, El.
      destruct (genSpots_in_zone h d' 6 i Hr Hrand Hi) as (s & Hs' & _ & Hin & Hex); [lia|].
      by exists s.
    + destruct (Hl a Ea) as (t & Hin & _ & Hcb & Hp). exists t.
      split; [done|]. split; [done|]. split; [done|].
      destruct (placement_tick_fired h t w a Hs Ea Hcb) as (Ea' & Ed' & _).
      eexists. split; [exact Ea'|]. simpl. rewrite El.
      split; [done|]. split; [by rewrite Ed', El|]. split; [done|].
      intros i Hi.
      destruct (genSpots_in_zone h (draws w) 6 i Hr Hrand Hi) as (s & Hs' & Es & Hin' & _);
        [lia|].
      by exists s.
Qed.

Lemma exactHost_roundingOK : Engine.roundingOK exactHost.
Proof. split; [intros a b Hab; exact Hab|intros z _; reflexivity]. Qed.

Lemma exactHost_randomOK : Engine.randomOK exactHost.
Proof. intros k. simpl. split; [discriminate|reflexivity]. Qed.

Lemma gridHost_roundingOK : Engine.roundingOK gridHost.
Proof.
  split.
  - intros a b Hab. cbn [fround gridHost].
    assert (Hf : Qfloor (a * 1024 + (1 # 2)) <= Qfloor (b * 1024 + (1 # 2))).
    { apply Qfloor_resp_le. lra. }
    revert Hf.
    generalize (Qfloor (a * 1024 + (1 # 2))) (Qfloor (b * 1024 + (1 # 2))).
    intros fa fb Hf. unfold Qle. simpl. lia.
  - intros z _. cbn [fround gridHost].
    assert (Hf : Qfloor (inject_Z z * 1024 + (1 # 2)) = z * 1024).
    { unfold Qfloor, inject_Z, Qmult, Qplus. simpl.
      Z.div_mod_to_equations. lia. }
    rewrite Hf. unfold Qeq, inject_Z. simpl. lia.
Qed.

Lemma gridHost_randomOK : Engine.randomOK gridHost.
Proof.
  intros k. simpl. pose proof (Nat.mod_upper_bound k 1000).
  unfold Qle, Qlt. simpl. lia.
Qed.

Lemma spots_stay_in_their_zones_witness :
  let n := length (Engine.entries cakeImages) in
  let spots := Engine.genSpots gridHost 7 (Engine.spotCount cakeImages) in
  Engine.roundingOK gridHost /\ Engine.randomOK gridHost /\
  length spots = n /\ (1 <= n <= 6)%nat /\
  (forall i, (i < n)%nat ->
     exists s, spots !! i = Some s /\ s = Engine.spotAt gridHost 7 i /\
       Engine.ZONES !! i = Some (Engine.zone i) /\ (i mod 6 = i)%nat /\
       Engine.withinJitter (Engine.zone i) s /\
       forall j, (j < 6)%nat -> j <> i -> ~ Engine.withinJitter (Engine.zone j) s) /\
  (forall i j, (i < n)%nat -> (j < n)%nat -> i <> j ->
     (i mod 6 <> j mod 6)%nat /\ Engine.zone i <> Engine.zone j) /\
  Engine.zonesSeparated /\
  (forall ops a, cakeAnimals (run gridHost ops init) = Some a ->
     let w := run gridHost ops init in
     let m := length (Engine.entries cakeImages) in
     m = 6%nat /\ length (ca_spots a) = m /\
     (forall i, (i < m)%nat ->
        exists s, ca_spots a !! i = Some s /\
          Engine.withinJitter (Engine.zone i) s /\
          forall j, (j < 6)%nat -> j <> i -> ~ Engine.withinJitter (Engine.zone j) s) /\
     exists t, t ∈ timers w /\ cb t = CbPlacementTick /\ period t = Some 4000%N /\
       exists a', cakeAnimals (firedState gridHost t w) = Some a' /\
         ca_spots a' = Engine.genSpots gridHost (draws w) m /\
         draws (firedState gridHost t w) = (draws w + 2 * m)%nat /\
         ca_tick a' = S (ca_tick a) /\
         forall i, (i < m)%nat ->
           exists s, ca_spots a' !! i = Some s /\
             s = Engine.spotAt gridHost (draws w) i /\
             Engine.withinJitter (Engine.zone i) s).
Proof.
  split; [exact gridHost_roundingOK|]. split; [exact gridHost_randomOK|].
  exact (spots_stay_in_their_zones gridHost cakeImages 7
           gridHost_roundingOK gridHost_randomOK).
Defined.


(** * Further properties of the code *)

(** ** What the timers and the handlers leave alone *)

(** The timer callbacks and the commits they cause never write the candles,
    the modal, the opened gifts or the pending id, whatever the state and
    however long the lapse. *)
Theorem timers_leave_session_cells (h : Host) (ms : N) (w : World) :
  candlesLit (elapse h ms w) = candlesLit w /\
  modalOpen (elapse h ms w) = modalOpen w /\
  modalMsg (elapse h ms w) = modalMsg w /\
  openedIds (elapse h ms w) = openedIds w /\
  _pendingGiftId (elapse h ms w) = _pendingGiftId w.
Proof. exact (elapse_sameSession h ms w). Qed.

Section ModalFacts.
Context (h : Host).

Lemma exec_modalPending o w : modalPending w -> modalPending (exec h o w).
Proof.
  unfold modalPending. intros Hw. destruct o; simpl.
  - by rewrite render_modalOpen, render_pending.
  - rewrite render_modalOpen, render_pending. unfold Cake_onClick.
    by destruct (candlesLit w).
  - rewrite render_modalOpen, render_pending. simpl. split; [by eexists|done].
  - rewrite render_modalOpen, render_pending, handleCloseModal_pending.
    assert (E : modalOpen (handleCloseModal w) = false).
    { unfold handleCloseModal. by destruct (_pendingGiftId (setModalOpen false w)). }
    rewrite E. split; [discriminate|]. intros [i Hi]. discriminate.
  - destruct (elapse_sameSession h ms w) as (_ & -> & _ & _ & ->). done.
Qed.

Lemma run_modalPending ops w : modalPending w -> modalPending (run h ops w).
Proof.
  revert w. induction ops as [|o ops IH]; intros w Hw; [done|].
  simpl. by apply IH, exec_modalPending.
Qed.

Lemma init_modalPending : modalPending init.
Proof. split; [discriminate|]. intros [i Hi]. discriminate. Qed.

End ModalFacts.

(** For every run, the modal is open exactly when a gift id is pending in
    [window._pendingGiftId]: [openGift] sets both, [closeModal] clears both,
    and nothing else writes either. *)
Theorem modal_open_iff_pending (h : Host) (ops : list Op) :
  let w := run h ops init in
  modalOpen w = true <-> exists i, _pendingGiftId w = JSnumber i.
Proof. apply (run_modalPending h ops init), init_modalPending. Qed.

(** In a session driven by the user interface the modal is open only on the
    gifts stage, and the pending id, when there is one, is the id of the box
    whose message the modal shows. *)
Theorem modal_only_on_gifts (h : Host) (evs : list UIEvent) (w : World) :
  ui_run h evs init = Some w ->
  modalOpen w = true ->
  stage w = gifts /\
  exists k, (k < 8)%nat /\ _pendingGiftId w = JSnumber (Z.of_nat k) /\
            GIFT_MESSAGES !! k = Some (modalMsg w).
Proof.
  intros Hrun.
  refine (ui_run_invariant h (fun w => modalOpen w = true ->
    stage w = gifts /\
    exists k, (k < 8)%nat /\ _pendingGiftId w = JSnumber (Z.of_nat k) /\
              GIFT_MESSAGES !! k = Some (modalMsg w)) _ evs init w _ Hrun);
    [|discriminate].
  clear w Hrun. intros e w w' Hw Hd. apply dispatch_exec in Hd. destruct e.
  - destruct Hd as [Hs ->]. simpl. rewrite render_modalOpen. simpl.
    intros Ho. destruct (Hw Ho) as [Hg _]. done.
  - destruct Hd as [Hs ->]. simpl. rewrite render_modalOpen.
    intros Ho. assert (Ho' : modalOpen w = true).
    { revert Ho. unfold Cake_onClick. by destruct (candlesLit w). }
    destruct (Hw Ho') as [Hg _]. congruence.
  - destruct Hd as (Hs & g & Hg & ->). intros _. simpl.
    rewrite render_stage, render_pending, render_modalMsg. simpl.
    split; [done|]. exists k.
    unfold gifts_catalog in Hg. rewrite list_lookup_imap in Hg.
    destruct (GIFT_MESSAGES !! k) as [m|] eqn:Em; [|discriminate].
    simpl in Hg. injection Hg as <-. simpl.
    split; [|done]. apply lookup_lt_Some in Em. exact Em.
  - subst w'. simpl. rewrite render_modalOpen.
    unfold handleCloseModal. by destruct (_pendingGiftId (setModalOpen false w)).
  - subst w'. simpl. destruct (elapse_sameSession h ms w) as (_ & -> & -> & _ & ->).
    intros Ho. destruct (Hw Ho) as [Hg Hk]. split; [by apply elapse_gifts|done].
Qed.

Lemma modal_only_on_gifts_witness :
  let w := run exactHost [enter; blowCandles; wait 600;
                          openGift 1 "Chúc mọi điều bạn ước đều gần hơn mỗi ngày ✨"] init in
  ui_run exactHost [ClickDoor; ClickCake; Elapse 600; ClickGift 1] init = Some w /\
  modalOpen w = true /\
  stage w = gifts /\
  exists k, (k < 8)%nat /\ _pendingGiftId w = JSnumber (Z.of_nat k) /\
            GIFT_MESSAGES !! k = Some (modalMsg w).
Proof.
  cbv zeta.
  assert (Hrun : ui_run exactHost [ClickDoor; ClickCake; Elapse 600; ClickGift 1] init
    = Some (run exactHost [enter; blowCandles; wait 600;
              openGift 1 "Chúc mọi điều bạn ước đều gần hơn mỗi ngày ✨"] init))
    by (vm_compute; reflexivity).
  assert (Ho : modalOpen (run exactHost [enter; blowCandles; wait 600;
              openGift 1 "Chúc mọi điều bạn ước đều gần hơn mỗi ngày ✨"] init) = true)
    by (vm_compute; reflexivity).
  split; [exact Hrun|]. split; [exact Ho|].
  exact (modal_only_on_gifts exactHost _ _ Hrun Ho).
Defined.

(** ** Candles and stage *)

Section CandleFacts.
Context (h : Host).

Lemma exec_litBeforeGifts o w :
  freshIds w -> litBeforeGifts w -> litBeforeGifts (exec h o w).
Proof.
  intros Hf Hw. destruct o; simpl.
  - intros Hc. rewrite render_candlesLit in Hc. rewrite render_stage. simpl.
    split; [discriminate|]. apply render_idle. by apply Hw.
  - intros Hc. rewrite render_candlesLit in Hc. unfold Cake_onClick in *.
    destruct (candlesLit w) eqn:E; [simpl in Hc; discriminate|congruence].
  - intros Hc. rewrite render_candlesLit in Hc. rewrite render_stage.
    destruct (Hw Hc). split; [done|]. by apply render_idle.
  - intros Hc. rewrite render_candlesLit in Hc. rewrite render_stage.
    unfold handleCloseModal in *.
    destruct (_pendingGiftId (setModalOpen false w)); destruct (Hw Hc);
      (split; [done|]; by apply render_idle).
  - intros Hc. destruct (elapse_sameSession h ms w) as (Ec & _).
    rewrite Ec in Hc. destruct (Hw Hc) as [Hs Hi].
    destruct (elapse_idle h ms w Hf Hi) as [Hi' Es]. split; [congruence|done].
Qed.

Lemma run_litBeforeGifts ops w :
  freshIds w -> litBeforeGifts w -> litBeforeGifts (run h ops w).
Proof.
  revert w. induction ops as [|o ops IH]; intros w Hf Hw; [done|].
  simpl. apply IH; [by apply exec_freshIds|by apply exec_litBeforeGifts].
Qed.

End CandleFacts.

(** ** Counting timers *)

Lemma count_filter_sub (P Q : Timer -> Prop)
    `{forall t, Decision (P t)} `{forall t, Decision (Q t)} (l : list Timer) :
  (length (filter P (filter Q l)) <= length (filter P l))%nat.
Proof.
  induction l as [|t l IH]; [done|].
  rewrite (filter_cons Q). destruct (decide (Q t)).
  - rewrite !(filter_cons P). destruct (decide (P t)); simpl; lia.
  - rewrite (filter_cons P). destruct (decide (P t)); simpl; lia.
Qed.

Lemma count_fmap_cb (c : Callback) (f : Timer -> Timer) (l : list Timer) :
  (forall t, cb (f t) = cb t) ->
  length (filter (fun t => cb t = c) (f <$> l)) = length (filter (fun t => cb t = c) l).
Proof.
  intros Hf. induction l as [|t l IH]; [done|].
  rewrite fmap_cons, !filter_cons, Hf.
  destruct (decide (cb t = c)); simpl; lia.
Qed.

Lemma count_at_most_one (P : Timer -> Prop) `{forall t, Decision (P t)}
    (i : nat) (l : list Timer) :
  NoDup (tid <$> l) -> (forall t, t ∈ l -> P t -> tid t = i) ->
  (length (filter P l) <= 1)%nat.
Proof.
  induction l as [|t l IH]; intros Hnd Hi; [simpl; lia|].
  rewrite fmap_cons in Hnd. apply NoDup_cons in Hnd as [Hnotin Hnd].
  assert (IH' : (length (filter P l) <= 1)%nat).
  { apply IH; [done|]. intros t' Hin. apply Hi. by right. }
  rewrite filter_cons. destruct (decide (P t)) as [Ht|]; [|done].
  assert (E : filter P l = []).
  { apply elem_of_nil_inv. intros t' Hin.
    apply list_elem_of_filter in Hin as [Ht' Hin].
    apply Hnotin. rewrite (Hi t); [|by left|done].
    rewrite <- (Hi t'); [|by right|done]. by apply list_elem_of_fmap_2. }
  rewrite E. simpl. lia.
Qed.

Lemma count_at_least_one (P : Timer -> Prop) `{forall t, Decision (P t)}
    (l : list Timer) (t : Timer) :
  t ∈ l -> P t -> (1 <= length (filter P l))%nat.
Proof.
  intros Hin Ht. assert (Hf : t ∈ filter P l) by (by apply list_elem_of_filter).
  destruct (filter P l); [by apply elem_of_nil in Hf|simpl; lia].
Qed.

Lemma count_by_callback (l : list Timer) :
  length l =
  (length (filter (fun t => cb t = CbSetStageGifts) l) +
   length (filter (fun t => cb t = CbToggleConfetti) l) +
   length (filter (fun t => cb t = CbPlacementTick) l))%nat.
Proof.
  induction l as [|t l IH]; [done|].
  rewrite !filter_cons. simpl. rewrite IH.
  destruct (cb t); repeat case_decide; try done; simpl; lia.
Qed.

Section TimerCounts.
Context (h : Host).

Lemma rearm_count c t w :
  (length (filter (fun t' => cb t' = c) (timers (rearm t w)))
   <= length (filter (fun t' => cb t' = c) (timers w)))%nat.
Proof.
  unfold rearm. destruct (period t) as [p|]; simpl.
  - rewrite count_fmap_cb; [done|]. intros t'. by destruct (Nat.eqb (tid t') (tid t)).
  - apply count_filter_sub.
Qed.

Lemma render_transitions_count w :
  (pendingTransitions (render h w) <= pendingTransitions w)%nat.
Proof.
  unfold pendingTransitions.
  destruct (render_cases h w) as [[Hr ->]|[(Es & Ea & ->)|(Es & a & Ea & ->)]]; [done| |].
  - simpl. rewrite filter_app, length_app. simpl. lia.
  - simpl. apply count_filter_sub.
Qed.

Lemma fire_transitions_count i w :
  (pendingTransitions (fire h i w) <= pendingTransitions w)%nat.
Proof.
  destruct (fire_cases h i w) as [->|(t & _ & _ & _ & ->)]; [done|].
  etrans; [apply render_transitions_count|]. unfold pendingTransitions.
  destruct (runCallback_other_fields h (cb t) (rearm t w)) as (-> & _).
  apply rearm_count.
Qed.

Lemma elapse_transitions_count ms w :
  (pendingTransitions (elapse h ms w) <= pendingTransitions w)%nat.
Proof.
  apply (elapse_invariant h (fun v => (pendingTransitions v <= pendingTransitions w)%nat));
    [| |done].
  - intros n v Hv; exact Hv.
  - intros i v Hv. etrans; [apply fire_transitions_count|done].
Qed.

Lemma exec_oneTransition o w :
  freshIds w -> litIdle w -> oneTransition w -> oneTransition (exec h o w).
Proof.
  unfold oneTransition. intros Hf Hl Hw. destruct o; simpl.
  - rewrite render_candlesLit. etrans; [apply render_transitions_count|done].
  - rewrite render_candlesLit. etrans; [apply render_transitions_count|].
    unfold Cake_onClick. destruct (candlesLit w) eqn:Ec; [|by rewrite Ec].
    simpl. unfold pendingTransitions. simpl. rewrite filter_app, length_app.
    fold (pendingTransitions w). rewrite idle_no_transition by auto. simpl. lia.
  - rewrite render_candlesLit. etrans; [apply render_transitions_count|done].
  - rewrite render_candlesLit. etrans; [apply render_transitions_count|].
    unfold handleCloseModal. by destruct (_pendingGiftId (setModalOpen false w)).
  - destruct (elapse_sameSession h ms w) as (-> & _).
    etrans; [apply elapse_transitions_count|done].
Qed.

Lemma run_oneTransition ops w :
  freshIds w -> litIdle w -> oneTransition w -> oneTransition (run h ops w).
Proof.
  revert w. induction ops as [|o ops IH]; intros w Hf Hl Hw; [done|].
  simpl. apply IH; [by apply exec_freshIds|by apply exec_litIdle|
                    by apply exec_oneTransition].
Qed.

End TimerCounts.

(** For every run, in which each call is committed before the next: while
    the candles are lit the gifts are not on stage and no transition is
    scheduled; once they are out at most one transition is scheduled, and the
    cake's click closure does nothing, however often it is invoked.  The
    bound is one per commit: [n] invocations of the closure of a commit with
    the candles lit, before React commits again, schedule [n] transitions.
    In particular the gifts are never on stage with the candles lit. *)
Theorem candles_gate_the_gifts (h : Host) (ops : list Op) (n : nat) :
  let w := run h ops init in
  if candlesLit w
  then stage w <> gifts /\ pendingTransitions w = 0%nat /\
       pendingTransitions (clicksBeforeCommit n w) = n
  else (pendingTransitions w <= 1)%nat /\ clicksBeforeCommit n w = w.
Proof.
  cbv zeta. set (w := run h ops init).
  assert (Ho : oneTransition w).
  { apply run_oneTransition; [apply init_freshIds|apply init_litIdle|].
    unfold oneTransition. vm_compute. lia. }
  assert (Hb : litBeforeGifts w).
  { apply run_litBeforeGifts; [apply init_freshIds|].
    intros _. split; [discriminate|]. by apply init_litIdle. }
  unfold oneTransition in Ho. destruct (candlesLit w) eqn:Ec.
  - destruct (Hb Ec) as [Hs _]. split; [done|]. split; [lia|].
    destruct (clicks_lit n w Ec) as (_ & _ & -> & _). lia.
  - split; [done|by apply clicks_out].
Qed.

(** ** Gift boxes *)



(** ** The entries of [CakeAnimals] *)

(** With no image the six fallback emoji are shown; otherwise the images,
    cut to the first six: between one and six entries.  [Array.from] makes
    one spot per entry, so with spots made from the same images every entry
    is shown at its own spot.  After any run of the page, whose images are
    the six constant [cakeImages], every entry of a mounted [CakeAnimals] is
    shown at a spot of its state.  The [?? 0] fallback of the render is for
    an entry with no spot, as there would be if spots made for fewer images
    were rendered with more: such an entry is shown at 0, 0. *)
Theorem entries_fallback_and_clamp
    (h : Host) (images images' : list string) (d : nat) :
  Engine.entries images =
    match images with
    | [] => Engine.fallbacks
    | _ => take 6 images
    end /\
  length (Engine.entries images) = Engine.spotCount images /\
  Engine.spotCount images =
    match images with
    | [] => 6%nat
    | _ => Nat.min (length images) 6
    end /\
  (forall i, (i < length (Engine.entries images))%nat ->
     shownAt (Engine.genSpots h d (Engine.spotCount images)) i = Engine.spotAt h d i) /\
  (forall ops a i, cakeAnimals (run h ops init) = Some a ->
     (i < length (Engine.entries cakeImages))%nat ->
     ca_spots a !! i = Some (shownAt (ca_spots a) i)) /\
  (forall i, (Engine.spotCount images <= i < length (Engine.entries images'))%nat ->
     shownAt (Engine.genSpots h d (Engine.spotCount images)) i
     = {| Placement.left := 0; Placement.top := 0 |}).
Proof.
  assert (E : Engine.entries images =
              match images with [] => Engine.fallbacks | _ => take 6 images end).
  { unfold Engine.entries, Engine.COUNT. destruct images as [|a l]; [done|].
    destruct (Nat.eqb (Nat.min (length (a :: l)) 6) 0) eqn:E0.
    - apply Nat.eqb_eq in E0. simpl in E0. lia.
    - destruct (Nat.le_ge_cases (length (a :: l)) 6) as [Hle|Hge].
      + rewrite Nat.min_l by done. rewrite !take_ge; [done|done|lia].
      + by rewrite Nat.min_r. }
  pose proof (entries_spotCount images) as L.
  split; [exact E|]. split; [exact L|]. split; [|split; [|split]].
  - rewrite <- L, E. destruct images as [|a l]; [done|]. rewrite length_take. lia.
  - intros i Hi. unfold shownAt.
    assert (Hs : Engine.genSpots h d (Engine.spotCount images) !! i
                 = Some (Engine.spotAt h d i)).
    { apply EngineFacts.genSpots_lookup. split; [done|]. by rewrite <- L. }
    by rewrite Hs.
  - intros ops a i Ea Hi.
    destruct (run_spotsGenerated h ops init (init_spotsGenerated h) a Ea) as [El [d' Ed]].
    rewrite entries_spotCount, <- El in Hi. unfold shownAt. rewrite Ed.
    assert (Hs : Engine.genSpots h d' (ca_length a) !! i = Some (Engine.spotAt h d' i))
      by (by apply EngineFacts.genSpots_lookup).
    by rewrite Hs.
  - intros i [Hi _]. unfold shownAt.
    assert (Hs : Engine.genSpots h d (Engine.spotCount images) !! i = None).
    { apply lookup_ge_None. by rewrite EngineFacts.genSpots_length. }
    by rewrite Hs.
Qed.

(** ** [rand] and the components that draw from it *)

Lemma fround_proper h (a b : Q) :
  Engine.roundingOK h -> (a == b)%Q -> (fround h a == fround h b)%Q.
Proof.
  intros [Hmono _] E.
  assert (H1 : (fround h a <= fround h b)%Q) by (apply Hmono; lra).
  assert (H2 : (fround h b <= fround h a)%Q) by (apply Hmono; lra).
  lra.
Qed.

Lemma rand_between h (r : Q) (lo hi : Z) :
  Engine.roundingOK h -> (0 <= r < 1)%Q ->
  - 2 ^ 52 <= lo -> lo <= hi -> hi <= 2 ^ 52 ->
  (inject_Z lo <= rand h r (inject_Z lo) (inject_Z hi) <= inject_Z hi)%Q.
Proof.
  intros Hr Hrand Hlo Hle Hhi. unfold rand.
  assert (E1 : (fround h (inject_Z hi - inject_Z lo) == inject_Z (hi - lo))%Q).
  { rewrite (fround_proper h _ (inject_Z (hi - lo)) Hr).
    - apply Hr. lia.
    - unfold Z.sub. rewrite inject_Z_plus, inject_Z_opp. reflexivity. }
  assert (Hpos : (0 <= inject_Z (hi - lo))%Q).
  { change 0%Q with (inject_Z 0). rewrite <- Zle_Qle. lia. }
  assert (B2 : (inject_Z 0 <= fround h (r * fround h (inject_Z hi - inject_Z lo))
                <= inject_Z (hi - lo))%Q).
  { apply EngineFacts.fround_between; [done|lia|lia|].
    change (inject_Z 0) with 0%Q. rewrite E1.
    revert Hpos. generalize (inject_Z (hi - lo)). intros K HK. split; nra. }
  change (inject_Z 0) with 0%Q in B2.
  assert (B3 : (inject_Z lo
                <= fround h (fround h (r * fround h (inject_Z hi - inject_Z lo))
                             + inject_Z lo)
                <= inject_Z hi)%Q).
  { apply EngineFacts.fround_between; [done|lia|lia|].
    revert B2. unfold Z.sub. rewrite inject_Z_plus, inject_Z_opp.
    generalize (fround h (r * fround h (inject_Z hi - inject_Z lo))).
    generalize (inject_Z hi) (inject_Z lo). intros H L t B2. lra. }
  exact B3.
Qed.

Lemma floor_rand_between h (r : Q) (lo hi : Z) :
  Engine.roundingOK h -> (0 <= r < 1)%Q ->
  - 2 ^ 52 <= lo -> lo <= hi -> hi <= 2 ^ 52 ->
  lo <= Math_floor (rand h r (inject_Z lo) (inject_Z hi)) <= hi.
Proof.
  intros Hr Hrand Hlo Hle Hhi.
  pose proof (rand_between h r lo hi Hr Hrand Hlo Hle Hhi) as [B1 B2].
  unfold Math_floor.
  pose proof (Qfloor_resp_le _ _ B1) as F1. pose proof (Qfloor_resp_le _ _ B2) as F2.
  rewrite Qfloor_Z in F1, F2. done.
Qed.

(** [rand(min, max)] with integer bounds [min <= max] returns a number
    between [min] and [max]; floored, it is an integer between them. *)
Theorem rand_within_bounds (h : Host) (r : Q) (lo hi : Z) :
  Engine.roundingOK h -> (0 <= r < 1)%Q ->
  - 2 ^ 52 <= lo -> lo <= hi -> hi <= 2 ^ 52 ->
  (inject_Z lo <= rand h r (inject_Z lo) (inject_Z hi) <= inject_Z hi)%Q /\
  lo <= Math_floor (rand h r (inject_Z lo) (inject_Z hi)) <= hi.
Proof.
  intros Hr Hrand Hlo Hle Hhi.
  split; [by apply rand_between|by apply floor_rand_between].
Qed.

Lemma rand_within_bounds_witness :
  Engine.roundingOK gridHost /\ (0 <= 999 # 1000 < 1)%Q /\
  - 2 ^ 52 <= 6 /\ 6 <= 12 /\ 12 <= 2 ^ 52 /\
  (inject_Z 6 <= rand gridHost (999 # 1000) (inject_Z 6) (inject_Z 12) <= inject_Z 12)%Q /\
  6 <= Math_floor (rand gridHost (999 # 1000) (inject_Z 6) (inject_Z 12)) <= 12.
Proof.
  assert (Hr : (0 <= 999 # 1000 < 1)%Q) by (split; [discriminate|reflexivity]).
  assert (H1 : - 2 ^ 52 <= 6) by lia.
  assert (H2 : 6 <= 12) by lia.
  assert (H3 : 12 <= 2 ^ 52) by lia.
  split; [exact gridHost_roundingOK|]. split; [exact Hr|].
  split; [exact H1|]. split; [exact H2|]. split; [exact H3|].
  exact (rand_within_bounds gridHost (999 # 1000) 6 12 gridHost_roundingOK Hr H1 H2 H3).
Defined.

(** The boxes [Gifts] builds: one per message, in order, with the index as
    id (so the React keys are distinct), the message of that index, a hue
    between 0 and 360 and a second gradient hue in [0, 360).  Their ids and
    messages are those the click handler receives. *)
Theorem gift_boxes_follow_the_messages (h : Host) (d : nat) :
  Engine.roundingOK h -> Engine.randomOK h ->
  let boxes := Gifts_useMemo h d in
  length boxes = length GIFT_MESSAGES /\
  NoDup (box_id <$> boxes) /\
  (forall i b, boxes !! i = Some b ->
     box_id b = Z.of_nat i /\
     GIFT_MESSAGES !! i = Some (box_message b) /\
     gifts_catalog !! i = Some {| id := box_id b; message := box_message b |} /\
     0 <= box_hue b <= 360 /\
     0 <= secondHue (box_hue b) < 360).
Proof.
  intros Hr Hrand boxes. subst boxes. unfold Gifts_useMemo.
  assert (Hlook : forall i b,
    imap (fun i m => {| box_id := Z.of_nat i;
                        box_hue := Math_floor (rand h (random h (d + i)) 0 360);
                        box_message := m |}) GIFT_MESSAGES !! i = Some b ->
    exists m, GIFT_MESSAGES !! i = Some m /\
      b = {| box_id := Z.of_nat i;
             box_hue := Math_floor (rand h (random h (d + i)) 0 360);
             box_message := m |}).
  { intros i b Hb. rewrite list_lookup_imap in Hb.
    destruct (GIFT_MESSAGES !! i) as [m|]; [|discriminate].
    injection Hb as <-. by exists m. }
  split; [apply length_imap|]. split.
  - apply NoDup_alt. intros i j x Hi Hj.
    rewrite list_lookup_fmap in Hi, Hj.
    destruct (imap _ GIFT_MESSAGES !! i) as [bi|] eqn:Ei; [|discriminate].
    destruct (imap _ GIFT_MESSAGES !! j) as [bj|] eqn:Ej; [|discriminate].
    destruct (Hlook i bi Ei) as (mi & _ & ->). destruct (Hlook j bj Ej) as (mj & _ & ->).
    simpl in Hi, Hj. injection Hi as <-. injection Hj as Hj. lia.
  - intros i b Hb. destruct (Hlook i b Hb) as (m & Em & ->). cbn [box_id box_hue box_message].
    split; [done|]. split; [done|]. split.
    + unfold gifts_catalog. rewrite list_lookup_imap, Em. reflexivity.
    + assert (B : 0 <= Math_floor (rand h (random h (d + i)) 0 360) <= 360).
      { apply (floor_rand_between h (random h (d + i)) 0 360); [done|apply Hrand|lia..]. }
      split; [done|]. unfold secondHue. apply Z.rem_bound_pos; lia.
Qed.

Lemma gift_boxes_follow_the_messages_witness :
  let boxes := Gifts_useMemo gridHost 3 in
  Engine.roundingOK gridHost /\ Engine.randomOK gridHost /\
  length boxes = length GIFT_MESSAGES /\
  NoDup (box_id <$> boxes) /\
  (forall i b, boxes !! i = Some b ->
     box_id b = Z.of_nat i /\
     GIFT_MESSAGES !! i = Some (box_message b) /\
     gifts_catalog !! i = Some {| id := box_id b; message := box_message b |} /\
     0 <= box_hue b <= 360 /\
     0 <= secondHue (box_hue b) < 360).
Proof.
  split; [exact gridHost_roundingOK|]. split; [exact gridHost_randomOK|].
  exact (gift_boxes_follow_the_messages gridHost 3 gridHost_roundingOK gridHost_randomOK).
Defined.

(** [Balloons] makes exactly [count] balloons (none for 0), each starting
    between 0 and 100 percent from the left edge with a delay between 0 and 6
    seconds. *)
Theorem balloons_within_the_page (h : Host) (d count : nat) :
  Engine.roundingOK h -> Engine.randomOK h ->
  length (Balloons.useMemo h d count) = count /\
  (forall i b, Balloons.useMemo h d count !! i = Some b ->
     (i < count)%nat /\
     (0 <= Balloons.left b <= 100)%Q /\ (0 <= Balloons.delay b <= 6)%Q).
Proof.
  intros Hr Hrand. unfold Balloons.useMemo, range. split.
  - by rewrite length_fmap, length_seq.
  - intros i b Hb. rewrite list_lookup_fmap in Hb.
    destruct (seq 0 count !! i) as [j|] eqn:Ej; [|discriminate].
    apply lookup_seq in Ej as [-> Hi]. simpl in Hb. injection Hb as <-.
    split; [done|]. cbn [Balloons.left Balloons.delay]. split.
    + apply (rand_between h _ 0 100); [done|apply Hrand|lia..].
    + apply (rand_between h _ 0 6); [done|apply Hrand|lia..].
Qed.

Lemma balloons_within_the_page_witness :
  Engine.roundingOK gridHost /\ Engine.randomOK gridHost /\
  length (Balloons.useMemo gridHost 0 18) = 18%nat /\
  (forall i b, Balloons.useMemo gridHost 0 18 !! i = Some b ->
     (i < 18)%nat /\
     (0 <= Balloons.left b <= 100)%Q /\ (0 <= Balloons.delay b <= 6)%Q).
Proof.
  split; [exact gridHost_roundingOK|]. split; [exact gridHost_randomOK|].
  exact (balloons_within_the_page gridHost 0 18 gridHost_roundingOK gridHost_randomOK).
Defined.

(** ** Following one interval through the event loop *)

Section Clock.
Context (h : Host).

Lemma fire_now i w : now (fire h i w) = now w.
Proof.
  destruct (fire_cases h i w) as [->|(t & _ & _ & _ & ->)]; [done|].
  rewrite render_now.
  destruct (runCallback_other_fields h (cb t) (rearm t w)) as (_ & _ & ->).
  apply rearm_other_fields.
Qed.

Lemma tick_ms_now w : now (tick_ms h w) = (now w + 1)%N.
Proof.
  unfold tick_ms.
  apply (fold_left_invariant (fun v => now v = (now w + 1)%N)); [|done].
  intros v i Hv. by rewrite fire_now.
Qed.

Lemma elapse_now ms w : now (elapse h ms w) = (now w + ms)%N.
Proof.
  induction ms as [|ms IH] using N.peano_ind.
  - simpl. lia.
  - rewrite elapse_succ, tick_ms_now, IH. lia.
Qed.

Lemma exec_now o w :
  now (exec h o w) = match o with wait ms => (now w + ms)%N | _ => now w end.
Proof.
  destruct o; simpl; rewrite ?render_now; try done.
  - unfold Cake_onClick. by destruct (candlesLit w).
  - unfold handleCloseModal. by destruct (_pendingGiftId (setModalOpen false w)).
  - apply elapse_now.
Qed.

Lemma run_now ops w : now (run h ops w) = (now w + totalWait ops)%N.
Proof.
  revert w. induction ops as [|o ops IH]; intros w; simpl; [lia|].
  rewrite IH, exec_now. destruct o; lia.
Qed.

(** A commit removes placement intervals only. *)
Lemma render_keeps_other w t :
  freshIds w -> intervalLive w -> t ∈ timers w -> cb t <> CbPlacementTick ->
  t ∈ timers (render h w).
Proof.
  intros [Hnd _] Hlive Hin Hcb.
  destruct (render_cases h w) as [[Hr ->]|[(Es & Ea & ->)|(Es & a & Ea & ->)]]; [done| |].
  - simpl. apply elem_of_app. by left.
  - simpl. apply list_elem_of_filter. split; [|done].
    intros E. destruct (Hlive a Ea) as (t' & Hin' & Et' & Hcb' & _).
    assert (t = t') by (apply (NoDup_tid_inj (timers w)); [done..|congruence]).
    congruence.
Qed.

Lemma fire_wellFormed i w : wellFormed w -> wellFormed (fire h i w).
Proof.
  intros (Hf & [Hr Ho] & Hl).
  split; [by apply fire_freshIds|]. split; [|by apply fire_intervalLive].
  split; [by apply fire_rendered|by apply fire_placementOwned].
Qed.

Lemma exec_wellFormed o w : wellFormed w -> wellFormed (exec h o w).
Proof.
  intros (Hf & Hm & Hl).
  split; [by apply exec_freshIds|]. split; [by apply exec_mounting|].
  by apply exec_intervalLive.
Qed.

Lemma run_wellFormed ops w : wellFormed w -> wellFormed (run h ops w).
Proof.
  revert w. induction ops as [|o ops IH]; intros w Hw; [done|].
  simpl. by apply IH, exec_wellFormed.
Qed.

Lemma init_wellFormed : wellFormed init.
Proof.
  split; [apply init_freshIds|]. split; [apply init_mounting|apply init_intervalLive].
Qed.

Lemma dueNow_NoDup w : freshIds w -> NoDup (dueNow w).
Proof.
  intros [Hnd _]. unfold dueNow.
  refine (sublist_NoDup _ _ Hnd _). apply fmap_sublist, sublist_filter.
Qed.

End Clock.

Section Interval.
Context (h : Host) {X : Type}.
Context (c0 : Callback) (i0 : nat) (p : N).
Context (stable : World -> Prop) (obs : World -> X) (step : X -> X).

Hypothesis stable_now : forall n v, stable v -> stable (set_now n v).
Hypothesis obs_now : forall n v, obs (set_now n v) = obs v.

Hypothesis fired_other_timer : forall t v,
  wellFormed v -> stable v -> ownedBy c0 i0 v ->
  t ∈ timers v -> (due t <= now v)%N -> cb t <> c0 ->
  obs (firedState h t v) = obs v /\ stable (firedState h t v) /\
  ownedBy c0 i0 (firedState h t v) /\
  (forall t0, t0 ∈ timers v -> cb t0 = c0 -> t0 ∈ timers (firedState h t v)).

Hypothesis fired_this_timer : forall t v,
  wellFormed v -> stable v -> ownedBy c0 i0 v ->
  t ∈ timers v -> cb t = c0 -> period t = Some p ->
  obs (firedState h t v) = step (obs v) /\ stable (firedState h t v) /\
  ownedBy c0 i0 (firedState h t v) /\
  {| tid := tid t; due := (now v + p)%N; period := period t; cb := cb t |}
    ∈ timers (firedState h t v).

Local Abbreviation trackedAt := (tracked c0 i0 p stable obs).

Lemma fire_tracked_other x D i v :
  trackedAt x D v -> (i <> i0 \/ (now v < D)%N) -> trackedAt x D (fire h i v).
Proof.
  intros (Hwf & Hst & Hown & (t0 & Hin0 & Ei0 & Hcb0 & Hp0 & Hd0) & Hobs) Hcase.
  destruct (fire_cases h i v) as [->|(t & Hin & Ei & Hdue & E)].
  { split; [done|]. split; [done|]. split; [done|]. split; [by exists t0|done]. }
  assert (Hcb : cb t <> c0).
  { intros Hcb. assert (tid t = i0) by (by apply Hown).
    assert (t = t0).
    { destruct Hwf as ([Hnd _] & _). apply (NoDup_tid_inj (timers v)); [done..|congruence]. }
    subst t. destruct Hcase as [Hne|Hlt]; [congruence|lia]. }
  destruct (fired_other_timer t v Hwf Hst Hown Hin Hdue Hcb) as (Eo & Hst' & Hown' & Hkeep).
  pose proof (fire_wellFormed h i v Hwf) as Hwf'.
  rewrite E in *. fold (firedState h t v) in *.
  split; [done|]. split; [done|]. split; [done|]. split; [|congruence].
  exists t0. split; [by apply Hkeep|done].
Qed.

Lemma fire_tracked_this x D v :
  trackedAt x D v -> (D <= now v)%N ->
  trackedAt (step x) (now v + p)%N (fire h i0 v).
Proof.
  intros (Hwf & Hst & Hown & (t0 & Hin0 & Ei0 & Hcb0 & Hp0 & Hd0) & Hobs) Hdue.
  pose proof (fire_wellFormed h i0 v Hwf) as Hwf'.
  unfold fire in *. destruct Hwf as ([Hnd Hall] & Hm & Hl).
  rewrite <- Ei0 in *. rewrite (lookupTimer_NoDup _ _ Hnd Hin0) in *.
  assert (Hleb : (due t0 <=? now v)%N = true) by (apply N.leb_le; lia).
  rewrite Hleb in *. fold (firedState h t0 v) in *.
  destruct (fired_this_timer t0 v (conj (conj Hnd Hall) (conj Hm Hl)) Hst Hown Hin0 Hcb0 Hp0)
    as (Eo & Hst' & Hown' & Hin').
  split; [done|]. split; [done|]. split; [done|]. split; [|congruence].
  eexists. split; [exact Hin'|]. by simpl.
Qed.

Lemma fold_tracked_other x D (l : list nat) : forall v,
  trackedAt x D v -> (i0 ∉ l \/ (now v < D)%N) ->
  trackedAt x D (fold_left (fun w' i => fire h i w') l v) /\
  now (fold_left (fun w' i => fire h i w') l v) = now v.
Proof.
  induction l as [|i l IH]; intros v Hv Hcase; [done|]. simpl.
  destruct (IH (fire h i v)) as [Ht En].
  - apply fire_tracked_other; [done|].
    destruct Hcase as [Hnotin|Hlt]; [left|by right].
    intros ->. apply Hnotin. by left.
  - rewrite fire_now. destruct Hcase as [Hnotin|Hlt]; [left|by right].
    intros Hin. apply Hnotin. by right.
  - split; [done|]. by rewrite En, fire_now.
Qed.

(** One millisecond: the interval runs exactly once if it is due, and not at
    all otherwise. *)
Lemma tick_ms_tracked x D w :
  trackedAt x D w -> (now w < D)%N -> (0 < p)%N ->
  if decide (D = now w + 1)%N
  then trackedAt (step x) (D + p)%N (tick_ms h w)
  else trackedAt x D (tick_ms h w).
Proof.
  intros Hw Hlt Hp. unfold tick_ms.
  set (w1 := set_now (now w + 1)%N w).
  assert (Hw1 : trackedAt x D w1).
  { destruct Hw as (Hwf & Hst & Hown & Ht0 & Hobs).
    split; [exact Hwf|]. split; [by apply stable_now|]. split; [exact Hown|].
    split; [exact Ht0|]. unfold w1. by rewrite obs_now. }
  assert (En1 : now w1 = (now w + 1)%N) by done.
  destruct (decide (D = now w + 1)%N) as [ED|ED].
  - assert (Hin : i0 ∈ dueNow w1).
    { destruct Hw1 as (_ & _ & _ & (t0 & Hin0 & Ei0 & _ & _ & Hd0) & _).
      unfold dueNow. rewrite <- Ei0. apply list_elem_of_fmap_2, list_elem_of_filter.
      split; [lia|done]. }
    assert (Hnd : NoDup (dueNow w1)) by (apply dueNow_NoDup, Hw1).
    apply list_elem_of_split in Hin as (l1 & l2 & El). rewrite El in *.
    apply NoDup_app in Hnd as (_ & Hdisj & _).
    rewrite fold_left_app. simpl.
    destruct (fold_tracked_other x D l1 w1 Hw1) as [H1 E1].
    { left. intros Hin. apply (Hdisj i0 Hin). by left. }
    set (v1 := fold_left (fun w' i => fire h i w') l1 w1) in *.
    assert (H2 : trackedAt (step x) (now v1 + p)%N (fire h i0 v1)).
    { apply (fire_tracked_this x D); [done|lia]. }
    replace (now v1 + p)%N with (D + p)%N in H2 by lia.
    apply fold_tracked_other; [done|]. right. rewrite fire_now. lia.
  - apply fold_tracked_other; [done|]. right. lia.
Qed.

End Interval.

(** ** The confetti interval *)

Section Confetti.
Context (h : Host).

Lemma render_showConfetti w : showConfetti (render h w) = showConfetti w.
Proof.
  destruct (render_cases h w) as [[Hr ->]|[(Es & Ea & ->)|(Es & a & Ea & ->)]];
    reflexivity.
Qed.

Lemma rearm_showConfetti t w : showConfetti (rearm t w) = showConfetti w.
Proof. unfold rearm. by destruct (period t). Qed.

(** The timers the commit after a callback leaves are timers of before,
    possibly re-armed, or a new placement interval. *)
Lemma firedState_from t v t' :
  t' ∈ timers (firedState h t v) ->
  cb t' = CbPlacementTick \/
  exists tt, tt ∈ timers v /\ tid tt = tid t' /\ cb tt = cb t'.
Proof.
  unfold firedState. intros Hin. apply render_cake_elem in Hin as [Hin|Hcb]; [|by left].
  right. destruct (runCallback_other_fields h (cb t) (rearm t v)) as (Et & _).
  rewrite Et in Hin.
  destruct (rearm_timersFrom t v t' Hin) as (tt & Htt & E1 & E2 & _). by exists tt.
Qed.

Lemma firedState_keeps_other t v t0 :
  wellFormed v -> t ∈ timers v -> t0 ∈ timers v -> tid t0 <> tid t ->
  cb t0 <> CbPlacementTick -> t0 ∈ timers (firedState h t v).
Proof.
  intros (Hf & Hm & Hl) Hin Hin0 Hne Hcb. unfold firedState.
  apply render_keeps_other; [| | |done].
  - by apply runCallback_freshIds, rearm_freshIds.
  - by apply runCallback_intervalLive, rearm_intervalLive.
  - destruct (runCallback_other_fields h (cb t) (rearm t v)) as (-> & _).
    by apply rearm_keeps.
Qed.

Lemma firedState_rearmed t v p :
  wellFormed v -> t ∈ timers v -> period t = Some p -> cb t <> CbPlacementTick ->
  {| tid := tid t; due := (now v + p)%N; period := period t; cb := cb t |}
    ∈ timers (firedState h t v).
Proof.
  intros (Hf & Hm & Hl) Hin Hp Hcb. unfold firedState.
  apply render_keeps_other; [| | |done].
  - by apply runCallback_freshIds, rearm_freshIds.
  - by apply runCallback_intervalLive, rearm_intervalLive.
  - destruct (runCallback_other_fields h (cb t) (rearm t v)) as (-> & _).
    by apply rearm_interval.
Qed.

Lemma firedState_confettiOwned t v :
  ownedBy CbToggleConfetti 0 v -> ownedBy CbToggleConfetti 0 (firedState h t v).
Proof.
  intros Hown t' Hin Hcb.
  destruct (firedState_from t v t' Hin) as [Hp|(tt & Htt & E1 & E2)]; [congruence|].
  rewrite <- E1. apply Hown; [done|congruence].
Qed.

Lemma confetti_fired_other t v :
  wellFormed v -> True -> ownedBy CbToggleConfetti 0 v ->
  t ∈ timers v -> (due t <= now v)%N -> cb t <> CbToggleConfetti ->
  showConfetti (firedState h t v) = showConfetti v /\ True /\
  ownedBy CbToggleConfetti 0 (firedState h t v) /\
  (forall t0, t0 ∈ timers v -> cb t0 = CbToggleConfetti ->
     t0 ∈ timers (firedState h t v)).
Proof.
  intros Hwf _ Hown Hin Hdue Hcb. split; [|split; [done|split]].
  - unfold firedState. rewrite render_showConfetti.
    destruct (cb t) eqn:E; [| done |]; simpl.
    + apply rearm_showConfetti.
    + unfold placementTick; simpl.
      destruct (cakeAnimals (rearm t v)); simpl; apply rearm_showConfetti.
  - by apply firedState_confettiOwned.
  - intros t0 Hin0 Hcb0. apply firedState_keeps_other; [done..| |congruence].
    intros E. destruct Hwf as ([Hnd _] & _).
    assert (t0 = t) by (by apply (NoDup_tid_inj (timers v))). congruence.
Qed.

Lemma confetti_fired_this t v :
  wellFormed v -> True -> ownedBy CbToggleConfetti 0 v ->
  t ∈ timers v -> cb t = CbToggleConfetti -> period t = Some 5000%N ->
  showConfetti (firedState h t v) = negb (showConfetti v) /\ True /\
  ownedBy CbToggleConfetti 0 (firedState h t v) /\
  {| tid := tid t; due := (now v + 5000)%N; period := period t; cb := cb t |}
    ∈ timers (firedState h t v).
Proof.
  intros Hwf _ Hown Hin Hcb Hp. split; [|split; [done|split]].
  - unfold firedState. rewrite render_showConfetti, Hcb. simpl.
    by rewrite rearm_showConfetti.
  - by apply firedState_confettiOwned.
  - apply firedState_rearmed; [done..|congruence].
Qed.

Lemma tick_ms_confettiClock w : confettiClock w -> confettiClock (tick_ms h w).
Proof.
  intros (q & r & En & Hr & Ht).
  pose proof (tick_ms_tracked h CbToggleConfetti 0 5000 (fun _ => True) showConfetti negb
    (fun _ _ _ => I) (fun _ _ => eq_refl) confetti_fired_other confetti_fired_this
    (N.even q) (5000 * (q + 1))%N w Ht) as Htick.
  pose proof (tick_ms_now h w) as En'.
  destruct (decide (5000 * (q + 1) = now w + 1)%N) as [E|E].
  - exists (q + 1)%N, 0%N. split; [lia|]. split; [lia|].
    replace (N.even (q + 1)) with (negb (N.even q)).
    + replace (5000 * (q + 1 + 1))%N with (5000 * (q + 1) + 5000)%N by lia.
      apply Htick; lia.
    + rewrite N.add_1_r, N.even_succ, <- N.negb_even. reflexivity.
  - exists q, (r + 1)%N. split; [lia|]. split; [lia|]. apply Htick; lia.
Qed.

Lemma elapse_confettiClock ms w : confettiClock w -> confettiClock (elapse h ms w).
Proof.
  unfold elapse. apply N.iter_invariant. intros v. apply tick_ms_confettiClock.
Qed.

Lemma commit_confettiClock w u :
  confettiClock w -> wellFormed (render h u) ->
  now u = now w -> showConfetti u = showConfetti w ->
  freshIds u -> intervalLive u ->
  (forall t, t ∈ timers w -> cb t = CbToggleConfetti -> t ∈ timers u) ->
  (forall t, t ∈ timers u -> cb t = CbToggleConfetti -> t ∈ timers w) ->
  confettiClock (render h u).
Proof.
  intros (q & r & En & Hr & (_ & _ & Hown & (t0 & Hin0 & Ei0 & Hcb0 & Hp0 & Hd0) & Hobs))
    Hwf Enu Es Hfu Hlu Hto Hfrom.
  exists q, r. split; [rewrite render_now; congruence|]. split; [done|].
  split; [done|]. split; [done|]. split; [|split].
  - intros t Hin Hcb. apply render_cake_elem in Hin as [Hin|Hp]; [|congruence].
    apply Hown; [by apply Hfrom|done].
  - exists t0. split; [|done].
    apply render_keeps_other; [done|done|by apply Hto|congruence].
  - by rewrite render_showConfetti, Es.
Qed.

Lemma exec_confettiClock o w : confettiClock w -> confettiClock (exec h o w).
Proof.
  intros Hw. assert (Hwf : wellFormed w) by (destruct Hw as (q & r & _ & _ & Ht); apply Ht).
  pose proof (exec_wellFormed h o w Hwf) as Hwf'. destruct Hwf as (Hf & Hm & Hl).
  destruct o; simpl in *.
  - by apply (commit_confettiClock w).
  - apply (commit_confettiClock w); try done; unfold Cake_onClick in *;
      destruct (candlesLit w); try done.
    + by apply setTimeout_freshIds.
    + intros a Ea. destruct (Hl a Ea) as (t & Hin & Ht). exists t.
      split; [|done]. simpl. apply elem_of_app. by left.
    + intros t Hin _. simpl. apply elem_of_app. by left.
    + intros t Hin Hcb. simpl in Hin. apply elem_of_app in Hin as [Hin|Hin]; [done|].
      apply list_elem_of_singleton in Hin. by subst t.
  - by apply (commit_confettiClock w).
  - apply (commit_confettiClock w); try done; unfold handleCloseModal in *;
      by destruct (_pendingGiftId (setModalOpen false w)).
  - by apply elapse_confettiClock.
Qed.

Lemma run_confettiClock ops w : confettiClock w -> confettiClock (run h ops w).
Proof.
  revert w. induction ops as [|o ops IH]; intros w Hw; [done|].
  simpl. by apply IH, exec_confettiClock.
Qed.

Lemma init_confettiClock : confettiClock init.
Proof.
  exists 0%N, 0%N. split; [done|]. split; [done|].
  split; [apply init_wellFormed|]. split; [done|]. split.
  - intros t Hin _. simpl in Hin. apply list_elem_of_singleton in Hin. by subst t.
  - split; [|done]. eexists. split; [apply list_elem_of_singleton; reflexivity|done].
Qed.

End Confetti.

(** The confetti flag follows the clock alone: whatever is clicked, after a
    total of [T] elapsed milliseconds it has been toggled once per full
    period of 5000 ms, so it is on exactly when [T / 5000] is even; and the
    page holds exactly one confetti interval at all times. *)
Theorem confetti_toggles_once_per_period (h : Host) (ops : list Op) :
  let w := run h ops init in
  showConfetti w = N.even (totalWait ops / 5000) /\
  confettiTimers w = 1%nat.
Proof.
  cbv zeta.
  destruct (run_confettiClock h ops init init_confettiClock)
    as (q & r & En & Hr & (Hwf & _ & Hown & (t0 & Hin0 & Ei0 & Hcb0 & _) & Hobs)).
  rewrite run_now in En. change (now init) with 0%N in En.
  assert (Eq : (totalWait ops / 5000 = q)%N).
  { symmetry. apply (N.div_unique _ _ _ r); [done|lia]. }
  split; [by rewrite Eq|].
  unfold confettiTimers. destruct Hwf as ([Hnd _] & _).
  pose proof (count_at_most_one (fun t => cb t = CbToggleConfetti) 0 _ Hnd Hown).
  pose proof (count_at_least_one (fun t => cb t = CbToggleConfetti) _ t0 Hin0 Hcb0).
  lia.
Qed.

(** For every run, in which each call is committed before the next, the
    timer table holds the confetti interval, the placement interval exactly
    while the cake is on stage, and at most one pending transition: never
    more than three timers.  The one way past that bound is to invoke the
    click closure of a commit with the candles lit more than once before
    React commits again: [n] invocations add [n] timers. *)
Theorem timer_table_is_bounded (h : Host) (ops : list Op) (n : nat) :
  let w := run h ops init in
  placementTimers w = (if decide (stage w = cake) then 1 else 0)%nat /\
  length (timers w) =
    (1 + (if decide (stage w = cake) then 1 else 0) + pendingTransitions w)%nat /\
  (length (timers w) <= 3)%nat /\
  length (timers (render h (clicksBeforeCommit n w))) =
    (length (timers w) + if candlesLit w then n else 0)%nat.
Proof.
  cbv zeta. set (w := run h ops init).
  assert (Hwf : wellFormed w) by apply run_wellFormed, init_wellFormed.
  assert (Hone : oneTransition w).
  { apply run_oneTransition; [apply init_freshIds|apply init_litIdle|].
    unfold oneTransition. vm_compute. lia. }
  assert (Hc : length (filter (fun t => cb t = CbToggleConfetti) (timers w)) = 1%nat).
  { destruct (run_confettiClock h ops init init_confettiClock)
      as (q & r & _ & _ & (_ & _ & Hown & (t0 & Hin0 & _ & Hcb0 & _) & _)).
    destruct Hwf as ([Hnd _] & _).
    pose proof (count_at_most_one (fun t => cb t = CbToggleConfetti) 0 _ Hnd Hown).
    pose proof (count_at_least_one (fun t => cb t = CbToggleConfetti) _ t0 Hin0 Hcb0).
    fold w in H, H0. lia. }
  assert (Hp : placementTimers w = (if decide (stage w = cake) then 1 else 0)%nat).
  { destruct (decide (stage w = cake)) as [Es|Es].
    - destruct Hwf as ([Hnd _] & [Hr Ho] & Hl). unfold rendered in Hr.
      destruct (cakeAnimals w) as [a|] eqn:Ea; [|done].
      destruct (Hl a Ea) as (t & Hin & Et & Hcb & _).
      assert (Hown : ownedBy CbPlacementTick (ca_interval a) w).
      { intros t' Hin' Hcb'. destruct (Ho t' Hin' Hcb') as (a' & Ea' & Et'). congruence. }
      pose proof (count_at_most_one (fun t => cb t = CbPlacementTick) _ _ Hnd Hown).
      pose proof (count_at_least_one (fun t => cb t = CbPlacementTick) _ t Hin Hcb).
      unfold placementTimers. lia.
    - apply quiet_no_placementTimer, mounting_quiet; [apply Hwf|done]. }
  split; [exact Hp|].
  assert (Hlen : length (timers w) =
    (1 + (if decide (stage w = cake) then 1 else 0) + pendingTransitions w)%nat).
  { rewrite (count_by_callback (timers w)), Hc. fold (pendingTransitions w).
    fold (placementTimers w). rewrite Hp. lia. }
  split; [exact Hlen|]. split.
  { rewrite Hlen. unfold oneTransition in Hone.
    destruct (decide (stage w = cake)), (candlesLit w); lia. }
  assert (Hrd : rendered w) by apply Hwf.
  destruct (candlesLit w) eqn:Ec.
  - destruct (clicks_lit n w Ec) as (Es & Ea & _ & El & _).
    rewrite render_rendered_id; [done|]. unfold rendered in *. by rewrite Ea, Es.
  - rewrite clicks_out by done. rewrite render_rendered_id by done. lia.
Qed.

(** ** The placement interval on the cake stage *)

Section PlacementClock.
Context (h : Host) (i0 : nat).

Lemma cakeIdle_fired t v :
  wellFormed v -> cakeIdle v -> t ∈ timers v -> cb t <> CbSetStageGifts ->
  firedState h t v = runCallback h (cb t) (rearm t v) /\
  cakeIdle (firedState h t v) /\
  timers (firedState h t v) = timers (rearm t v).
Proof.
  intros (Hf & [Hr Ho] & Hl) [Hs Hi] Hin Hcb. unfold firedState.
  destruct (rearm_other_fields t v) as (Es & Ea & _).
  assert (Es' : stage (runCallback h (cb t) (rearm t v)) = cake).
  { rewrite runCallback_stage; congruence. }
  assert (Hrd : rendered (runCallback h (cb t) (rearm t v))).
  { unfold rendered in Hr. destruct (cakeAnimals v) as [a|] eqn:Eav; [|done].
    assert (Ec : exists a', cakeAnimals (runCallback h (cb t) (rearm t v)) = Some a').
    { destruct (cb t); [done| |]; simpl.
      - rewrite Ea. by eexists.
      - unfold placementTick; simpl. rewrite Ea. by eexists. }
    destruct Ec as [a' Ec]. unfold rendered. by rewrite Ec. }
  rewrite (render_rendered_id h _ Hrd).
  destruct (runCallback_other_fields h (cb t) (rearm t v)) as (Et & _).
  split; [done|]. split; [|done]. split; [done|].
  intros t' Hin' Hcb'. rewrite Et in Hin'.
  destruct (rearm_timersFrom t v t' Hin') as (tt & Htt & _ & E2 & _).
  apply (Hi tt); [done|congruence].
Qed.

Lemma rearm_ownedBy c i t v : ownedBy c i v -> ownedBy c i (rearm t v).
Proof.
  intros Hown t' Hin Hcb.
  destruct (rearm_timersFrom t v t' Hin) as (tt & Htt & E1 & E2 & _).
  rewrite <- E1. apply Hown; [done|congruence].
Qed.

Lemma placement_fired_other t v :
  wellFormed v -> cakeIdle v -> ownedBy CbPlacementTick i0 v ->
  t ∈ timers v -> (due t <= now v)%N -> cb t <> CbPlacementTick ->
  placementObs (firedState h t v) = placementObs v /\
  cakeIdle (firedState h t v) /\
  ownedBy CbPlacementTick i0 (firedState h t v) /\
  (forall t0, t0 ∈ timers v -> cb t0 = CbPlacementTick ->
     t0 ∈ timers (firedState h t v)).
Proof.
  intros Hwf Hst Hown Hin Hdue Hcb.
  assert (Hg : cb t <> CbSetStageGifts) by (by apply Hst).
  destruct (cakeIdle_fired t v Hwf Hst Hin Hg) as (E & Hst' & Et).
  destruct (rearm_other_fields t v) as (_ & Ea & _ & _ & Ep & _).
  split; [|split; [done|split]].
  - rewrite E. unfold placementObs. destruct (cb t); [done| |done]. simpl.
    by rewrite Ea, Ep.
  - intros t' Hin'. rewrite Et in Hin'. by apply (rearm_ownedBy _ _ t v Hown).
  - intros t0 Hin0 Hcb0. rewrite Et. apply rearm_keeps; [done|].
    intros Ei. destruct Hwf as ([Hnd _] & _).
    assert (t0 = t) by (by apply (NoDup_tid_inj (timers v))). congruence.
Qed.

Lemma placement_fired_this t v :
  wellFormed v -> cakeIdle v -> ownedBy CbPlacementTick i0 v ->
  t ∈ timers v -> cb t = CbPlacementTick -> period t = Some 4000%N ->
  placementObs (firedState h t v) = placementStep (placementObs v) /\
  cakeIdle (firedState h t v) /\
  ownedBy CbPlacementTick i0 (firedState h t v) /\
  {| tid := tid t; due := (now v + 4000)%N; period := period t; cb := cb t |}
    ∈ timers (firedState h t v).
Proof.
  intros Hwf Hst Hown Hin Hcb Hp.
  assert (Hg : cb t <> CbSetStageGifts) by congruence.
  destruct (cakeIdle_fired t v Hwf Hst Hin Hg) as (E & Hst' & Et).
  destruct (rearm_other_fields t v) as (_ & Ea & _ & _ & Ep & _).
  split; [|split; [done|split]].
  - rewrite E, Hcb. unfold placementObs, placementStep. simpl.
    unfold placementTick; simpl. rewrite Ea, Ep.
    destruct (cakeAnimals v) eqn:Eav; simpl; rewrite ?Ea; done.
  - intros t' Hin'. rewrite Et in Hin'. by apply (rearm_ownedBy _ _ t v Hown).
  - rewrite Et. by apply rearm_interval.
Qed.

Lemma elapse_placement_tracked (n0 : nat) (D0 : N) (ms : N) (w : World) :
  tracked CbPlacementTick i0 4000 cakeIdle placementObs (n0, Some 0%nat) D0 w ->
  D0 = (now w + 4000)%N ->
  exists k r, ms = (4000 * k + r)%N /\ (r < 4000)%N /\
    tracked CbPlacementTick i0 4000 cakeIdle placementObs
      ((n0 + N.to_nat k)%nat, Some (N.to_nat k)) (D0 + 4000 * k)%N (elapse h ms w).
Proof.
  intros Hw ->. induction ms as [|ms IH] using N.peano_ind.
  - exists 0%N, 0%N. split; [done|]. split; [done|].
    replace (n0 + N.to_nat 0)%nat with n0 by lia.
    replace (now w + 4000 + 4000 * 0)%N with (now w + 4000)%N by lia. exact Hw.
  - destruct IH as (k & r & -> & Hr & Ht). rewrite elapse_succ.
    pose proof (tick_ms_tracked h CbPlacementTick i0 4000 cakeIdle placementObs
      placementStep (fun _ _ Hv => Hv) (fun _ _ => eq_refl)
      placement_fired_other placement_fired_this _ _ _ Ht) as Htick.
    pose proof (elapse_now h (4000 * k + r) w) as En. rewrite En in Htick.
    destruct (decide (now w + 4000 + 4000 * k = now w + (4000 * k + r) + 1)%N) as [E|E].
    + exists (k + 1)%N, 0%N. split; [lia|]. split; [lia|].
      replace (now w + 4000 + 4000 * (k + 1))%N
        with (now w + 4000 + 4000 * k + 4000)%N by lia.
      replace ((n0 + N.to_nat (k + 1))%nat, Some (N.to_nat (k + 1)))
        with (placementStep ((n0 + N.to_nat k)%nat, Some (N.to_nat k))).
      * apply Htick; lia.
      * unfold placementStep. simpl. f_equal; [lia|f_equal; lia].
    + exists k, (r + 1)%N. split; [lia|]. split; [lia|]. apply Htick; lia.
Qed.

End PlacementClock.

(** After the click that opens the door, and for as long as the cake is left
    alone, the placement engine runs once per full period of 4000 ms: [ms]
    milliseconds after the click the stage is still the cake, the candles
    are lit, [ms / 4000] ticks have run, the tick counter of [CakeAnimals]
    says so, and six spots are on screen. *)
Theorem placement_ticks_once_per_period
    (h : Host) (evs : list UIEvent) (w0 w1 : World) (ms : N) :
  ui_run h evs init = Some w0 ->
  stage w0 = door ->
  dispatch h ClickDoor w0 = Some w1 ->
  let v := elapse h ms w1 in
  stage v = cake /\ candlesLit v = true /\
  placementTicks v = (placementTicks w0 + N.to_nat (ms / 4000))%nat /\
  exists a, cakeAnimals v = Some a /\ ca_tick a = N.to_nat (ms / 4000) /\
            length (ca_spots a) = 6%nat.
Proof.
  intros Hrun Hs Hd v. apply dispatch_exec in Hd as [_ ->].
  pose proof (ui_run_uiInv h evs init w0 init_uiInv Hrun) as (Hf & Hl & Hm & Hdl & _).
  destruct (ui_run_is_run h evs init w0 Hrun) as [ops Eops].
  assert (Hwf0 : wellFormed w0) by (rewrite Eops; apply run_wellFormed, init_wellFormed).
  assert (Hq : quiet w0) by (apply mounting_quiet; [done|congruence]).
  destruct Hq as (_ & Ea0 & _).
  set (w1 := exec h enter w0) in *.
  assert (E1 : w1 = mountCakeAnimals h cakeImages (handleEnter w0)).
  { unfold w1. simpl. unfold render. simpl. by rewrite Ea0. }
  assert (Hwf1 : wellFormed w1) by (by apply exec_wellFormed).
  assert (Hi1 : idle w1).
  { unfold w1. simpl. apply render_idle. apply Hl, Hdl, Hs. }
  assert (Ht : tracked CbPlacementTick (next_tid w0) 4000 cakeIdle placementObs
                 (placementTicks w0, Some 0%nat) (now w1 + 4000)%N w1).
  { split; [done|]. split; [split; [by rewrite E1|done]|]. split; [|split].
    - intros t Hin Hcb. destruct Hwf1 as (_ & [_ Ho] & _).
      destruct (Ho t Hin Hcb) as (a & Ea & ->). rewrite E1 in Ea. simpl in Ea.
      by injection Ea as <-.
    - exists {| tid := next_tid w0; due := (now w0 + 4000)%N; period := Some 4000%N;
                cb := CbPlacementTick |}.
      rewrite E1. split; [|done].
      simpl. apply elem_of_app. right. apply list_elem_of_singleton. reflexivity.
    - by rewrite E1. }
  destruct (elapse_placement_tracked h (next_tid w0) (placementTicks w0) _ ms w1 Ht eq_refl)
    as (k & r & Ems & Hr & (_ & [Hsv _] & _ & _ & Hobs)).
  assert (Ek : (ms / 4000 = k)%N).
  { symmetry. apply (N.div_unique _ _ _ r); [done|lia]. }
  fold v in Hsv, Hobs. unfold placementObs in Hobs. injection Hobs as Hticks Htick.
  split; [done|]. split.
  { unfold v. destruct (elapse_sameSession h ms w1) as (-> & _).
    unfold w1. simpl. rewrite render_candlesLit. by apply Hdl. }
  split; [by rewrite Ek|].
  destruct (cakeAnimals v) as [a|] eqn:Ea; [|discriminate].
  exists a. split; [done|]. split; [rewrite Ek; simpl in Htick; congruence|].
  assert (Hsg : spotsGenerated h v).
  { assert (Ev : v = run h (ops ++ [enter; wait ms]) init).
    { rewrite run_app, <- Eops. reflexivity. }
    rewrite Ev. apply run_spotsGenerated, init_spotsGenerated. }
  destruct (Hsg a Ea) as [El [d ->]].
  rewrite EngineFacts.genSpots_length, El. reflexivity.
Qed.

Lemma placement_ticks_once_per_period_witness :
  let w0 := run exactHost [wait 1234] init in
  let w1 := exec exactHost enter w0 in
  let v := elapse exactHost 9000 w1 in
  ui_run exactHost [Elapse 1234] init = Some w0 /\
  stage w0 = door /\
  dispatch exactHost ClickDoor w0 = Some w1 /\
  stage v = cake /\ candlesLit v = true /\
  placementTicks v = (placementTicks w0 + N.to_nat (9000 / 4000))%nat /\
  exists a, cakeAnimals v = Some a /\ ca_tick a = N.to_nat (9000 / 4000) /\
            length (ca_spots a) = 6%nat.
Proof.
  cbv zeta.
  assert (H0 : ui_run exactHost [Elapse 1234] init
               = Some (run exactHost [wait 1234] init)) by (vm_compute; reflexivity).
  assert (Hs : stage (run exactHost [wait 1234] init) = door) by (vm_compute; reflexivity).
  assert (H1 : dispatch exactHost ClickDoor (run exactHost [wait 1234] init)
               = Some (exec exactHost enter (run exactHost [wait 1234] init)))
    by (vm_compute; reflexivity).
  split; [exact H0|]. split; [exact Hs|]. split; [exact H1|].
  exact (placement_ticks_once_per_period exactHost _ _ _ 9000 H0 Hs H1).
Defined.

(** ** The scheduled transition and further clicks *)

Section TransitionSurvives.
Context (h : Host).

Lemma render_armed T w : armed T w -> armed T (render h w).
Proof.
  intros (Hs & Hf & (t0 & Hin0 & Hcb0 & Hd0) & Hmin).
  split; [by rewrite render_stage|]. split; [by apply render_freshIds|]. split.
  - exists t0. split; [by apply render_cake_keeps|done].
  - intros t Hin Hcb. apply Hmin; [by apply (render_transitions h)|done].
Qed.

Lemma dispatch_after_blow T e v v' :
  candlesLit v = false ->
  (armed T v /\ (now v < T)%N) \/ (stage v = gifts /\ (T <= now v)%N) ->
  dispatch h e v = Some v' ->
  candlesLit v' = false /\
  ((armed T v' /\ (now v' < T)%N) \/ (stage v' = gifts /\ (T <= now v')%N)).
Proof.
  intros Hc Hv Hd. apply dispatch_exec in Hd.
  assert (Hclick : forall o u,
            exec h o v = render h u -> candlesLit u = false -> stage u = stage v ->
            timers u = timers v -> next_tid u = next_tid v -> now u = now v ->
            candlesLit (exec h o v) = false /\
            ((armed T (exec h o v) /\ (now (exec h o v) < T)%N) \/
             (stage (exec h o v) = gifts /\ (T <= now (exec h o v))%N))).
  { intros o u -> Hcu Hsu Htu Hnu Hnow. rewrite render_candlesLit, render_now, Hnow.
    split; [done|]. destruct Hv as [[Ha Hlt]|[Hg Hle]].
    - left. split; [|done]. apply render_armed.
      destruct Ha as (Hs & [Hnd Hall] & Ht0 & Hmin).
      split; [congruence|]. split; [split; by rewrite ?Htu, ?Hnu|].
      by rewrite Htu.
    - right. split; [|done]. rewrite render_stage. congruence. }
  destruct e.
  - destruct Hd as [Hs ->]. destruct Hv as [[Ha Hlt]|[Hg _]]; [|done].
    apply (Hclick enter (handleEnter v)); try done.
    simpl. symmetry. apply Ha.
  - destruct Hd as [_ ->]. apply (Hclick blowCandles v); try done.
    simpl. unfold Cake_onClick. by rewrite Hc.
  - destruct Hd as (_ & g & _ & ->).
    by apply (Hclick _ (handleOpenGift (id g) (message g) v)).
  - subst v'. apply (Hclick closeModal (handleCloseModal v)); try done;
      unfold handleCloseModal; by destruct (_pendingGiftId (setModalOpen false v)).
  - subst v'. simpl. destruct (elapse_sameSession h ms v) as (-> & _).
    split; [done|]. rewrite elapse_now. destruct Hv as [[Ha Hlt]|[Hg Hle]].
    + destruct (decide (now v + ms < T)%N) as [Hearly|Hlate].
      * left. split; [|done]. by apply elapse_armed_early.
      * right. split; [|lia]. apply (elapse_armed_due h T); [done|done|lia].
    + right. split; [by apply elapse_gifts|lia].
Qed.

End TransitionSurvives.

(** Once the lit candles have been blown on the cake stage, nothing the
    visitor does cancels or hastens the transition: after any further events
    of the user interface the candles are still out, and the stage is the
    cake while less than 600 ms have passed since the click and the gifts
    from then on. *)
Theorem transition_survives_clicks
    (h : Host) (evs evs' : list UIEvent) (w w1 w2 : World) :
  ui_run h evs init = Some w ->
  candlesLit w = true ->
  dispatch h ClickCake w = Some w1 ->
  ui_run h evs' w1 = Some w2 ->
  candlesLit w2 = false /\
  stage w2 = if (now w2 <? now w + 600)%N then cake else gifts.
Proof.
  intros Hrun Hc Hd Hrun'.
  pose proof (ui_run_uiInv h evs init w init_uiInv Hrun) as (Hf & Hl & _).
  apply dispatch_exec in Hd as [Hs ->].
  destruct (blowCandles_arms h w Hf Hl Hs Hc) as (Ha & En & Ec).
  assert (HJ : candlesLit w2 = false /\
    ((armed (now w + 600) w2 /\ (now w2 < now w + 600)%N) \/
     (stage w2 = gifts /\ (now w + 600 <= now w2)%N))).
  { refine (ui_run_invariant h (fun v => candlesLit v = false /\
      ((armed (now w + 600) v /\ (now v < now w + 600)%N) \/
       (stage v = gifts /\ (now w + 600 <= now v)%N))) _ evs' _ w2 _ Hrun').
    - intros e v v' [Hcv Hv]. by apply dispatch_after_blow.
    - split; [done|]. left. split; [done|]. rewrite En. lia. }
  destruct HJ as [Hc2 [[Ha2 Hlt]|[Hg Hle]]]; split; try done.
  - apply N.ltb_lt in Hlt. rewrite Hlt. apply Ha2.
  - apply N.ltb_ge in Hle. by rewrite Hle.
Qed.

Lemma transition_survives_clicks_witness :
  let w := run exactHost [enter] init in
  let w1 := exec exactHost blowCandles w in
  ui_run exactHost [ClickDoor] init = Some w /\
  candlesLit w = true /\
  dispatch exactHost ClickCake w = Some w1 /\
  ui_run exactHost [Elapse 300; ClickCake; Elapse 300] w1
    = Some (run exactHost [wait 300; blowCandles; wait 300] w1) /\
  candlesLit (run exactHost [wait 300; blowCandles; wait 300] w1) = false /\
  stage (run exactHost [wait 300; blowCandles; wait 300] w1) =
    if (now (run exactHost [wait 300; blowCandles; wait 300] w1) <? now w + 600)%N
    then cake else gifts.
Proof.
  cbv zeta.
  assert (H0 : ui_run exactHost [ClickDoor] init = Some (run exactHost [enter] init))
    by (vm_compute; reflexivity).
  assert (H1 : candlesLit (run exactHost [enter] init) = true) by (vm_compute; reflexivity).
  assert (H2 : dispatch exactHost ClickCake (run exactHost [enter] init)
               = Some (exec exactHost blowCandles (run exactHost [enter] init)))
    by (vm_compute; reflexivity).
  assert (H3 : ui_run exactHost [Elapse 300; ClickCake; Elapse 300]
                 (exec exactHost blowCandles (run exactHost [enter] init))
               = Some (run exactHost [wait 300; blowCandles; wait 300]
                         (exec exactHost blowCandles (run exactHost [enter] init))))
    by (vm_compute; reflexivity).
  split; [exact H0|]. split; [exact H1|]. split; [exact H2|]. split; [exact H3|].
  exact (transition_survives_clicks exactHost _ _ _ _ _ H0 H1 H2 H3).
Defined.

(** ** Before the gifts stage, and closing twice *)

(** In a session driven by the user interface no gift can be opened before
    the gifts are on stage: until then the modal is closed, its text is
    empty, no id is pending and no gift is marked opened. *)
Theorem no_gift_before_the_gifts_stage (h : Host) (evs : list UIEvent) (w : World) :
  ui_run h evs init = Some w ->
  stage w <> gifts ->
  modalOpen w = false /\ modalMsg w = EmptyString /\
  _pendingGiftId w = JSundefined /\ openedIds w = ∅.
Proof.
  intros Hrun.
  refine (ui_run_invariant h (fun w => stage w <> gifts ->
    modalOpen w = false /\ modalMsg w = EmptyString /\
    _pendingGiftId w = JSundefined /\ openedIds w = ∅) _ evs init w _ Hrun);
    [|done].
  clear w Hrun. intros e w w' Hw Hd. apply dispatch_exec in Hd. destruct e.
  - destruct Hd as [Hs ->]. intros _. simpl.
    rewrite render_modalOpen, render_modalMsg, render_pending, render_openedIds.
    apply Hw. congruence.
  - destruct Hd as [Hs ->]. intros _. simpl.
    rewrite render_modalOpen, render_modalMsg, render_pending, render_openedIds.
    unfold Cake_onClick. destruct (candlesLit w); apply Hw; congruence.
  - destruct Hd as (Hs & g & _ & ->). intros Hn. exfalso. apply Hn.
    pose proof (exec_stage_click h (openGift (id g) (message g)) w) as E.
    simpl in E. simpl. congruence.
  - subst w'. intros Hn.
    pose proof (exec_stage_click h closeModal w) as E. simpl in E. simpl in Hn.
    rewrite E in Hn. destruct (Hw Hn) as (Hc & Hm & Hp & Ho). simpl.
    rewrite render_modalOpen, render_modalMsg, render_pending, render_openedIds.
    unfold handleCloseModal. simpl. rewrite Hp. done.
  - subst w'. simpl. intros Hn.
    destruct (elapse_sameSession h ms w) as (_ & -> & -> & -> & ->).
    apply Hw. destruct (elapse_stage h ms w); congruence.
Qed.

Lemma no_gift_before_the_gifts_stage_witness :
  let w := run exactHost [enter; wait 5000; blowCandles; wait 599] init in
  ui_run exactHost [ClickDoor; Elapse 5000; ClickCake; Elapse 599] init = Some w /\
  stage w <> gifts /\
  modalOpen w = false /\ modalMsg w = EmptyString /\
  _pendingGiftId w = JSundefined /\ openedIds w = ∅.
Proof.
  cbv zeta.
  assert (H0 : ui_run exactHost [ClickDoor; Elapse 5000; ClickCake; Elapse 599] init
               = Some (run exactHost [enter; wait 5000; blowCandles; wait 599] init))
    by (vm_compute; reflexivity).
  assert (H1 : stage (run exactHost [enter; wait 5000; blowCandles; wait 599] init)
               <> gifts) by (vm_compute; discriminate).
  split; [exact H0|]. split; [exact H1|].
  exact (no_gift_before_the_gifts_stage exactHost _ _ H0 H1).
Defined.

(** Closing the modal twice is closing it once: the second [closeModal]
    finds nothing pending, in any state for the handler and after any run
    for the operation with its commit. *)
Theorem closeModal_twice_is_once (h : Host) (ops : list Op) (v : World) :
  handleCloseModal (handleCloseModal v) = handleCloseModal v /\
  run h (ops ++ [closeModal; closeModal]) init = run h (ops ++ [closeModal]) init.
Proof.
  assert (E : forall u, handleCloseModal (handleCloseModal u) = handleCloseModal u).
  { intros u. unfold handleCloseModal. simpl.
    destruct (_pendingGiftId u) eqn:Ep; simpl; rewrite ?Ep; reflexivity. }
  split; [apply E|]. rewrite !run_app. set (w := run h ops init).
  assert (Hm : mounting w) by apply run_mounting, init_mounting.
  assert (Hr : rendered (handleCloseModal w)).
  { destruct Hm as [Hr _]. unfold rendered, handleCloseModal in *.
    by destruct (_pendingGiftId (setModalOpen false w)). }
  simpl. rewrite (render_rendered_id h _ Hr), E, (render_rendered_id h _ Hr).
  reflexivity.
Qed.

(** ** The door and the gifts *)

Section DoorExit.
Context (h : Host).

Lemma fire_openedSince T0 i v : openedSince T0 v -> openedSince T0 (fire h i v).
Proof.
  intros (Hf & Hn & Ht & Hs). pose proof (fire_freshIds h i v Hf) as Hf'.
  destruct (fire_cases h i v) as [E|(t & Hin & _ & Hdue & E)]; rewrite E in *; [done|].
  destruct (rearm_other_fields t v) as (Es & _ & _ & En & _).
  destruct (runCallback_other_fields h (cb t) (rearm t v)) as (Et & _ & En').
  split; [done|]. split; [by rewrite render_now, En', En|].
  destruct (decide (cb t = CbSetStageGifts)) as [Hcb|Hcb].
  - pose proof (Ht t Hin Hcb) as Hd. split.
    + intros t' Hin' Hcb'. apply (render_transitions h) in Hin'; [|done].
      rewrite Et in Hin'. apply rearm_elem in Hin' as [[Hin' _]|(_ & t0 & p & _ & _ & _ & ->)].
      * by apply Ht.
      * simpl. lia.
    + intros _. rewrite render_now, En', En. lia.
  - destruct (fired_other h t v Hf Hin Hcb) as (Es' & _ & En'' & Hg & _). split.
    + intros t' Hin' Hcb'. apply Ht; [by apply Hg|done].
    + rewrite Es', En''. exact Hs.
Qed.

Lemma elapse_openedSince T0 ms v :
  openedSince T0 v -> openedSince T0 (elapse h ms v).
Proof.
  intros Hv. induction ms as [|ms IH] using N.peano_ind; [done|].
  rewrite elapse_succ. unfold tick_ms.
  apply fold_left_invariant; [intros u i; apply fire_openedSince|].
  destruct IH as (Hf & Hn & Ht & Hs).
  split; [done|]. split; [simpl; lia|]. split; [done|].
  intros Hg. simpl in *. specialize (Hs Hg). lia.
Qed.

Lemma dispatch_openedSince T0 e v v' :
  openedSince T0 v -> dispatch h e v = Some v' -> openedSince T0 v'.
Proof.
  intros (Hf & Hn & Ht & Hs) Hd. apply dispatch_exec in Hd.
  assert (Hclick : forall o u,
            exec h o v = render h u -> now u = now v ->
            (forall t, t ∈ timers u -> cb t = CbSetStageGifts -> (T0 + 600 <= due t)%N) ->
            (stage u = gifts -> (T0 + 600 <= now v)%N) ->
            openedSince T0 (exec h o v)).
  { intros o u E En Htu Hsu. split; [by apply exec_freshIds|]. rewrite E.
    rewrite render_now, render_stage, En. split; [done|]. split; [|done].
    intros t Hin Hcb. apply Htu; [by apply (render_transitions h)|done]. }
  destruct e.
  - destruct Hd as [_ ->]. by apply (Hclick enter (handleEnter v)).
  - destruct Hd as [Es ->].
    apply (Hclick blowCandles (Cake_onClick (candlesLit v) v)); [done| | |].
    + unfold Cake_onClick. by destruct (candlesLit v).
    + unfold Cake_onClick. destruct (candlesLit v); [|done]. simpl.
      intros t Hin Hcb. apply elem_of_app in Hin as [Hin|Hin]; [by apply Ht|].
      apply list_elem_of_singleton in Hin. subst t. simpl. lia.
    + unfold Cake_onClick. destruct (candlesLit v); simpl; congruence.
  - destruct Hd as (_ & g & _ & ->).
    by apply (Hclick _ (handleOpenGift (id g) (message g) v)).
  - subst v'. apply (Hclick closeModal (handleCloseModal v)); try done;
      unfold handleCloseModal; by destruct (_pendingGiftId (setModalOpen false v)).
  - subst v'. by apply elapse_openedSince.
Qed.

End DoorExit.

(** The gifts wait for the timeout: in a session driven by the user
    interface, from the click that opens the door on, the stage is never the
    door again, and it is the gifts only once 600 ms or more have passed
    since that click, whatever is clicked meanwhile.  The door, which leaves
    the page when it is opened, has that long to do so before a click on it
    could move the stage back. *)
Theorem gifts_wait_for_the_timeout
    (h : Host) (evs evs' : list UIEvent) (w0 w1 w2 : World) :
  ui_run h evs init = Some w0 ->
  stage w0 = door ->
  dispatch h ClickDoor w0 = Some w1 ->
  ui_run h evs' w1 = Some w2 ->
  stage w1 = cake /\ now w1 = now w0 /\ (now w0 <= now w2)%N /\
  match stage w2 with
  | door => False
  | cake => True
  | gifts => (now w0 + 600 <= now w2)%N
  end.
Proof.
  intros Hrun Hs Hd Hrun'.
  pose proof (ui_run_uiInv h evs init w0 init_uiInv Hrun) as Hinv0.
  pose proof (dispatch_uiInv h _ _ _ Hinv0 Hd) as Hinv1.
  pose proof (ui_run_stage_monotone h evs' w1 w2 Hinv1 Hrun') as Hrank.
  destruct Hinv0 as (Hf & Hl & _ & Hdl & _).
  apply dispatch_exec in Hd as [_ ->].
  assert (Es1 : stage (exec h enter w0) = cake) by apply (exec_stage_click h enter w0).
  assert (En1 : now (exec h enter w0) = now w0) by (simpl; by rewrite render_now).
  assert (H1 : openedSince (now w0) (exec h enter w0)).
  { split; [by apply exec_freshIds|]. split; [lia|]. split; [|congruence].
    intros t Hin Hcb. exfalso. simpl in Hin.
    apply (render_transitions h) in Hin; [|done].
    by apply (Hl (Hdl Hs) t Hin). }
  assert (H2 : openedSince (now w0) w2).
  { refine (ui_run_invariant h (openedSince (now w0)) _ evs' _ w2 H1 Hrun').
    intros e v v'. apply dispatch_openedSince. }
  destruct H2 as (_ & Hn2 & _ & Hg2).
  split; [done|]. split; [done|]. split; [done|].
  rewrite Es1 in Hrank. destruct (stage w2); simpl in Hrank; [lia|done|by apply Hg2].
Qed.

Lemma gifts_wait_for_the_timeout_witness :
  let w0 := run exactHost [wait 1000] init in
  let w1 := exec exactHost enter w0 in
  let w2 := run exactHost [blowCandles; enter; wait 600] w1 in
  ui_run exactHost [Elapse 1000] init = Some w0 /\
  stage w0 = door /\
  dispatch exactHost ClickDoor w0 = Some w1 /\
  ui_run exactHost [ClickCake; ClickDoor; Elapse 600] w1 = Some w2 /\
  stage w2 = gifts /\
  stage w1 = cake /\ now w1 = now w0 /\ (now w0 <= now w2)%N /\
  match stage w2 with
  | door => False
  | cake => True
  | gifts => (now w0 + 600 <= now w2)%N
  end.
Proof.
  cbv zeta.
  assert (H0 : ui_run exactHost [Elapse 1000] init = Some (run exactHost [wait 1000] init))
    by (vm_compute; reflexivity).
  assert (Hs : stage (run exactHost [wait 1000] init) = door) by (vm_compute; reflexivity).
  assert (H1 : dispatch exactHost ClickDoor (run exactHost [wait 1000] init)
               = Some (exec exactHost enter (run exactHost [wait 1000] init)))
    by (vm_compute; reflexivity).
  assert (H2 : ui_run exactHost [ClickCake; ClickDoor; Elapse 600]
                 (exec exactHost enter (run exactHost [wait 1000] init))
               = Some (run exactHost [blowCandles; enter; wait 600]
                         (exec exactHost enter (run exactHost [wait 1000] init))))
    by (vm_compute; reflexivity).
  split; [exact H0|]. split; [exact Hs|]. split; [exact H1|]. split; [exact H2|].
  split; [vm_compute; reflexivity|].
  exact (gifts_wait_for_the_timeout exactHost _ _ _ _ _ H0 Hs H1 H2).
Defined.
